(** * prepack: a reversible byte-stream preprocessor

    A shallow embedding of [prepack.c] and [prepack_lite.c]: the lane
    router ([modulo]), the delta filter, the adaptive single-weight
    filter, the histogram of the scan pass, and the three passes (scan,
    commit encode, decode) of both source files.

    Conventions of the embedding.
    - A [byte] (uint8_t) is a [Z] in [0, 256); every conversion of an
      [int] expression to [byte] is written [to_byte].
    - An [int] is a [Z].  The only [int]s of the program are [weight]
      (shown below to stay in [-1280, 1280]), [d] (at most 8), header
      values and file offsets, so no wrap-around of [int] is reachable
      for files below 2 GiB.
    - [weight >> rate] is the arithmetic shift [Z.shiftr].
    - The C globals are the fields of the record [globals]; every
      function threads it explicitly.
    - A [FILE] opened for reading is its contents, a position and the
      end-of-file indicator; reads never fail ([ferror] stays 0).  The
      output stream is the list of bytes written so far.
    - The arrays [previous], [previousByte], [secondPreviousByte] have 8
      entries and are indexed by the lane returned by [modulo], which is
      below the channel count (at most 8): see [modulo_step]. *)

From Stdlib Require Import ZArith List Lia Bool QArith.
From stdpp Require Import base numbers list.

Local Open Scope Z_scope.

(** ** Constants and globals *)

Definition blocksize : Z := 24576.
Definition boost : Z := 24.
Definition totalChannels : Z := 15.
Definition breakpoint : Z := 10.

(** 0-9 delta, 10-14 adaptive. *)
Definition indexToChannel : list Z :=
  [0; 1; 2; 3; 4; 5; 6; 7; 8; 1; 2; 3; 4; 6; 8].

(** learning rate for the filter *)
Definition rate : Z := 6.

(** Conversion of an [int] value to [byte]. *)
Definition to_byte (x : Z) : Z := x mod 256.

Definition is_byte (x : Z) : Prop := 0 <= x < 256.

Record globals : Type := Globals {
  weight : Z;
  previous : list Z;
  previousByte : list Z;
  secondPreviousByte : list Z;
  d : Z;
  freq : list (list Z);
  fileLength : Z
}.

Definition set_weight (w : Z) (g : globals) : globals :=
  Globals w (previous g) (previousByte g) (secondPreviousByte g)
          (d g) (freq g) (fileLength g).

Definition set_previous (p : list Z) (g : globals) : globals :=
  Globals (weight g) p (previousByte g) (secondPreviousByte g)
          (d g) (freq g) (fileLength g).

Definition set_previousByte (p : list Z) (g : globals) : globals :=
  Globals (weight g) (previous g) p (secondPreviousByte g)
          (d g) (freq g) (fileLength g).

Definition set_secondPreviousByte (p : list Z) (g : globals) : globals :=
  Globals (weight g) (previous g) (previousByte g) p
          (d g) (freq g) (fileLength g).

Definition set_d (n : Z) (g : globals) : globals :=
  Globals (weight g) (previous g) (previousByte g) (secondPreviousByte g)
          n (freq g) (fileLength g).

Definition set_freq (f : list (list Z)) (g : globals) : globals :=
  Globals (weight g) (previous g) (previousByte g) (secondPreviousByte g)
          (d g) f (fileLength g).

Definition set_fileLength (n : Z) (g : globals) : globals :=
  Globals (weight g) (previous g) (previousByte g) (secondPreviousByte g)
          (d g) (freq g) n.

(** The state of the globals when [main] starts: static storage is
    zero-initialised, [weight = 0] and [d = 0] by their initialisers. *)
Definition initial_globals : globals :=
  Globals 0 (replicate 8 0) (replicate 8 0) (replicate 8 0) 0
          (replicate 15 (replicate 256 0)) 0.

(** The filter state proper: what the "reset variables" loops clear. *)
Definition filter_state (g : globals) : Z * list Z * list Z * list Z :=
  (weight g, previous g, previousByte g, secondPreviousByte g).

(** ** Delta filter *)

Definition deltaEnc (b i : Z) (g : globals) : Z * globals :=
  let b := to_byte b in
  let delta := to_byte (previous g !!! Z.to_nat i - b) in
  (delta, set_previous (<[Z.to_nat i := b]> (previous g)) g).

Definition deltaDec (delta i : Z) (g : globals) : Z * globals :=
  let delta := to_byte delta in
  let b := to_byte (previous g !!! Z.to_nat i - delta) in
  (b, set_previous (<[Z.to_nat i := b]> (previous g)) g).

(** ** Adaptive filter *)

Definition updateWeight (err : Z) (g : globals) : globals :=
  let err := to_byte err in
  let w := weight g in
  let w := if err <? 127 then w + 1 else w in
  let w := if 127 <? err then w - 1 else w in
  let w := if w =? 1281 then w - 1 else w in
  let w := if w =? -1281 then w + 1 else w in
  set_weight w g.

Definition adaptiveDeltaEnc (b i : Z) (g : globals) : Z * globals :=
  let b := to_byte b in
  let i := Z.to_nat i in
  let prediction :=
    to_byte ((previousByte g !!! i - secondPreviousByte g !!! i)
             + previousByte g !!! i) in
  let w := Z.shiftr (weight g) rate in
  let error := to_byte (w + (prediction - b)) in
  let g := updateWeight error g in
  let g := set_secondPreviousByte
             (<[i := previousByte g !!! i]> (secondPreviousByte g)) g in
  let g := set_previousByte (<[i := to_byte (w + b)]> (previousByte g)) g in
  (error, g).

Definition adaptiveDeltaDec (error i : Z) (g : globals) : Z * globals :=
  let error := to_byte error in
  let i := Z.to_nat i in
  let prediction :=
    to_byte ((previousByte g !!! i - secondPreviousByte g !!! i)
             + previousByte g !!! i) in
  let w := Z.shiftr (weight g) rate in
  let b := to_byte (w + (prediction - error)) in
  let g := updateWeight error g in
  let g := set_secondPreviousByte
             (<[i := previousByte g !!! i]> (secondPreviousByte g)) g in
  let g := set_previousByte (<[i := to_byte (w + b)]> (previousByte g)) g in
  (b, g).

(** ** Synthetic modulo (the lane router) *)

Definition modulo (max : Z) (g : globals) : Z * globals :=
  let d1 := d g + 1 in
  let d2 := if d1 =? max then 0 else d1 in
  (d2, set_d d2 g).

Definition resetModulo (g : globals) : globals := set_d 0 g.

(** [k] successive calls of [modulo max]: the values returned, in order,
    and the globals after the last call. *)
Fixpoint modulo_calls (k : nat) (max : Z) (g : globals) : list Z * globals :=
  match k with
  | O => ([], g)
  | S k' =>
      let '(r, g1) := modulo max g in
      let '(rs, g2) := modulo_calls k' max g1 in
      (r :: rs, g2)
  end.

(** A run of [updateWeight] over a sequence of residuals. *)
Definition updateWeight_run (errs : list Z) (g : globals) : globals :=
  fold_left (fun g e => updateWeight e g) errs g.

(** ** The histogram of the scan pass *)

(** [freq[channel][current]++] *)
Definition count (current channel : Z) (g : globals) : globals :=
  let current := Z.to_nat (to_byte current) in
  let channel := Z.to_nat channel in
  let row := freq g !!! channel in
  set_freq (<[channel := <[current := row !!! current + 1]> row]> (freq g)) g.

(** The quotient [freq[channel][i] / fileLength] of [calcEntropy], as the
    exact rational that the double division approximates (for an empty
    file the double division is 0/0 and gives a NaN, where [Qdiv] gives
    0: the statements below are about non-empty files).  The logarithm
    and the sum of [calcEntropy], and the comparison of
    [findSmallestChannel], are floating point and are not embedded: the
    selector is a parameter of the passes that call it. *)
Definition charProbability (channel i : Z) (g : globals) : Q :=
  (inject_Z ((freq g !!! Z.to_nat channel) !!! Z.to_nat i)
   / inject_Z (fileLength g))%Q.

(** The sum of [charProbability] over the 256 symbols. *)
Definition probability_total (channel : Z) (g : globals) : Q :=
  fold_right (fun i acc => (charProbability channel i g + acc)%Q) 0%Q
    (seqZ 0 256).

(** ** Streams *)

Record FILE : Type := File {
  contents : list Z;
  pos : Z;
  eof_ind : bool
}.

Definition EOF : Z := -1.

Definition fopen_rb (bytes : list Z) : FILE := File bytes 0 false.
Definition feof (f : FILE) : bool := eof_ind f.
Definition ftell (f : FILE) : Z := pos f.

(** [fread(buffer, 1, n, f)]: the bytes read (their number is the value
    returned by [fread]); the end-of-file indicator is set when fewer
    than [n] bytes were left. *)
Definition fread (n : Z) (f : FILE) : list Z * FILE :=
  let buffer := take (Z.to_nat n) (drop (Z.to_nat (pos f)) (contents f)) in
  let r := Z.of_nat (length buffer) in
  (buffer, File (contents f) (pos f + r) (eof_ind f || (r <? n))).

Definition getc (f : FILE) : Z * FILE :=
  match drop (Z.to_nat (pos f)) (contents f) with
  | c :: _ => (c, File (contents f) (pos f + 1) (eof_ind f))
  | [] => (EOF, File (contents f) (pos f) true)
  end.

Definition fseek_end (f : FILE) : FILE :=
  File (contents f) (Z.of_nat (length (contents f))) false.
Definition fseek_cur (offset : Z) (f : FILE) : FILE :=
  File (contents f) (pos f + offset) false.
Definition fseek_set (offset : Z) (f : FILE) : FILE :=
  File (contents f) offset false.
Definition rewind (f : FILE) : FILE := File (contents f) 0 false.

(** [putc(c, out)] writes [c] converted to unsigned char. *)
Definition putc (c : Z) (out : list Z) : list Z := out ++ [to_byte c].
Definition fwrite (buffer out : list Z) : list Z := out ++ buffer.

(** What a pass can end in: it returns, or it reads [indexToChannel]
    outside its 15 entries (undefined in C; the index is recorded), or
    the model ran out of fuel (shown not to happen). *)
Inductive result (A : Type) : Type :=
| Returned (a : A)
| TableOverrun (index : Z)
| OutOfFuel.
Arguments Returned {A} a.
Arguments TableOverrun {A} index.
Arguments OutOfFuel {A}.

(** [indexToChannel[index]] *)
Definition table_at (index : Z) : option Z :=
  if index <? 0 then None else indexToChannel !! Z.to_nat index.

(** [while (feof(in) == 0) body] *)
Fixpoint while_not_feof {A : Type} (fuel : nat)
    (body : FILE -> A -> FILE * A) (inp : FILE) (a : A) : option (FILE * A) :=
  match fuel with
  | O => None
  | S fuel' =>
      if feof inp then Some (inp, a)
      else let '(inp1, a1) := body inp a in while_not_feof fuel' body inp1 a1
  end.

(** Iterations that always suffice for a file: one per byte, one for the
    read that meets the end of the file, one for the final test. *)
Definition fuel_for (f : FILE) : nat := S (S (length (contents f))).

(** [for (i = 0; i < r; i++) buffer[i] = f(buffer[i]);] over the [r]
    bytes read into the buffer. *)
Fixpoint for_each (f : Z -> globals -> Z * globals) (buffer : list Z)
    (g : globals) : list Z * globals :=
  match buffer with
  | [] => ([], g)
  | b :: rest =>
      let '(b', g1) := f b g in
      let '(rest', g2) := for_each f rest g1 in
      (b' :: rest', g2)
  end.

(** The "reset variables" loop:
    [for (j = 0; j < 8; j++) { previous[j] = 0; previousByte[j] = 0;
    secondPreviousByte[j] = 0; weight = 0; }]  ([prepack_lite.c]'s
    [decode] sets [weight = 0] after the loop instead). *)
Definition reset_variables (g : globals) : globals :=
  fold_left
    (fun g j =>
       set_weight 0
         (set_secondPreviousByte (<[j := 0]> (secondPreviousByte g))
            (set_previousByte (<[j := 0]> (previousByte g))
               (set_previous (<[j := 0]> (previous g)) g))))
    (seq 0 8) g.

(** ** The scan pass *)

(** The body of the innermost loop of the scan, for one byte of the
    buffer.  [split] is the index at which the scan switches from the
    delta to the adaptive filter: [breakpoint] in [prepack.c], the
    literal 7 in [prepack_lite.c]. *)
Definition scan_byte (split index channel b : Z) (g : globals) : globals :=
  if channel =? 0 then count b index g
  else if index <? split then
    let '(mod_, g1) := modulo channel g in
    let '(r, g2) := deltaEnc b mod_ g1 in
    count r index g2
  else if split <=? index then
    let '(mod_, g1) := modulo channel g in
    let '(r, g2) := adaptiveDeltaEnc b mod_ g1 in
    count r index g2
  else g.

(** [for (i = 0; i < r; i++) ...] for one candidate. *)
Definition scan_candidate_bytes (split : Z) (index : Z) (buffer : list Z)
    (g : globals) : globals :=
  let channel := indexToChannel !!! Z.to_nat index in
  fold_left (fun g b => scan_byte split index channel b g) buffer g.

(** One candidate over one buffer, up to and including [resetModulo()]. *)
Definition scan_candidate (split : Z) (buffer : list Z) (g : globals)
    (index : Z) : globals :=
  resetModulo (scan_candidate_bytes split index buffer g).

(** The candidates below [index] over one buffer: the globals with which
    candidate [index] starts on this buffer. *)
Definition scan_upto (split : Z) (index : Z) (buffer : list Z) (g : globals)
    : globals :=
  fold_left (scan_candidate split buffer) (seqZ 0 index) g.

(** [for (index = 0; index < totalChannels; index++) ...] *)
Definition scan_block (split : Z) (buffer : list Z) (g : globals) : globals :=
  fold_left (scan_candidate split buffer) (seqZ 0 totalChannels) g.

(** The body of the scan's [while] loop: read a block, test all encoding
    methods on it, and stride if there is room. *)
Definition scan_body (split eof : Z) (inp : FILE) (g : globals)
    : FILE * globals :=
  let '(buffer, inp1) := fread blocksize inp in
  let g1 := scan_block split buffer g in
  let inp2 :=
    if ftell inp1 + blocksize * boost <? eof
    then fseek_cur (blocksize * boost) inp1 else inp1 in
  (inp2, g1).

(** "gather some file info" and "scan input". *)
Definition scan_input (split : Z) (inp : FILE) (g : globals)
    : option (FILE * globals) :=
  let inp1 := fseek_end inp in
  let g1 := set_fileLength (ftell inp1) g in
  let inp2 := fseek_set 0 inp1 in
  let eof := fileLength g1 in
  while_not_feof (fuel_for inp2) (scan_body split eof) inp2 g1.

(** The same loop with the globals replaced by the list of buffers read:
    the control of the loop does not depend on the globals. *)
Definition blocks_body (eof : Z) (inp : FILE) (acc : list (list Z))
    : FILE * list (list Z) :=
  let '(buffer, inp1) := fread blocksize inp in
  let inp2 :=
    if ftell inp1 + blocksize * boost <? eof
    then fseek_cur (blocksize * boost) inp1 else inp1 in
  (inp2, acc ++ [buffer]).

Definition scanned_blocks (inp : FILE) : option (FILE * list (list Z)) :=
  let inp1 := fseek_end inp in
  let eof := ftell inp1 in
  let inp2 := fseek_set 0 inp1 in
  while_not_feof (fuel_for inp2) (blocks_body eof) inp2 [].

(** The body shared by the [while] loops of the commit encode and of the
    decode: read a block, filter it in place, write it. *)
Definition transcode_body (filter_block : list Z -> globals -> list Z * globals)
    (inp : FILE) (s : list Z * globals) : FILE * (list Z * globals) :=
  let '(out, g) := s in
  let '(buffer, inp1) := fread blocksize inp in
  let '(buffer1, g1) := filter_block buffer g in
  (inp1, (fwrite buffer1 out, g1)).

Definition transcode (filter_block : list Z -> globals -> list Z * globals)
    (inp : FILE) (out : list Z) (g : globals) : result (list Z * globals) :=
  match while_not_feof (fuel_for inp) (transcode_body filter_block)
          inp (out, g) with
  | None => OutOfFuel
  | Some (_, r) => Returned r
  end.

(** One routed filter call: [mod = modulo(ch); ... = filter(b, mod)]. *)
Definition routed (filter : Z -> Z -> globals -> Z * globals) (ch b : Z)
    (g : globals) : Z * globals :=
  let '(mod_, g1) := modulo ch g in filter b mod_ g1.

(** ** prepack_lite.c *)

Module Lite.

(** [scan]: the scan loop (with the literal 7 as the switch between
    the filter families), [findSmallestChannel], "reset variables". *)
Definition scan (findSmallestChannel : globals -> Z) (inp : FILE)
    (g : globals) : option (Z * FILE * globals) :=
  match scan_input 7 inp g with
  | None => None
  | Some (inp1, g1) =>
      let channel := findSmallestChannel g1 in
      Some (channel, inp1, reset_variables g1)
  end.

(** "// encode": the filtering of one buffer in [encode]. *)
Definition encode_block (channel ch : Z) (buffer : list Z) (g : globals)
    : list Z * globals :=
  if channel <? breakpoint then
    if negb (ch =? 0) then for_each (routed deltaEnc ch) buffer g
    else (buffer, g)
  else
    if negb (ch =? 0) then for_each (routed adaptiveDeltaEnc ch) buffer g
    else (buffer, g).

Definition encode (channel : Z) (inp : FILE) (out : list Z) (g : globals)
    : result (list Z * globals) :=
  match table_at channel with
  | None => TableOverrun channel
  | Some ch =>
      let out1 := putc channel out in
      let inp1 := rewind inp in
      transcode (encode_block channel ch) inp1 out1 g
  end.

(** "// decode": the filtering of one buffer in [decode]. *)
Definition decode_block (channel ch : Z) (buffer : list Z) (g : globals)
    : list Z * globals :=
  if channel <? breakpoint then
    if negb (ch =? 0) then for_each (routed deltaDec ch) buffer g
    else (buffer, g)
  else
    if negb (ch =? 0) then for_each (routed adaptiveDeltaDec ch) buffer g
    else (buffer, g).

Definition decode (inp : FILE) (out : list Z) (g : globals)
    : result (list Z * globals) :=
  let '(channel, inp1) := getc inp in
  match table_at channel with
  | None => TableOverrun channel
  | Some ch =>
      let g1 := reset_variables g in
      transcode (decode_block channel ch) inp1 out g1
  end.

(** [main] in mode 'e': [method = scan(in); encode(method, in, out)]. *)
Definition main_e (findSmallestChannel : globals -> Z) (inp : FILE)
    (g : globals) : result (list Z * globals) :=
  match scan findSmallestChannel inp g with
  | None => OutOfFuel
  | Some (method, inp1, g1) => encode method inp1 [] g1
  end.

(** [main] in mode 'd'. *)
Definition main_d (inp : FILE) (g : globals) : result (list Z * globals) :=
  decode inp [] g.

End Lite.

(** ** prepack.c *)

Module Prepack.

(** "gather some file info", "scan input": the scan loop of [main],
    switching filter family at [breakpoint]. *)
Definition scan (inp : FILE) (g : globals) : option (FILE * globals) :=
  scan_input breakpoint inp g.

(** "// encode": the filtering of one buffer; the test [ch != 0] is
    inside the [for] loops here. *)
Definition encode_block (channel ch : Z) (buffer : list Z) (g : globals)
    : list Z * globals :=
  if channel <? breakpoint then
    for_each (fun b g => if negb (ch =? 0) then routed deltaEnc ch b g
                         else (b, g)) buffer g
  else
    for_each (fun b g => if negb (ch =? 0) then routed adaptiveDeltaEnc ch b g
                         else (b, g)) buffer g.

(** From "reset variables" to the end of the encode loop. *)
Definition commit (channel : Z) (inp : FILE) (out : list Z) (g : globals)
    : result (list Z * globals) :=
  match table_at channel with
  | None => TableOverrun channel
  | Some ch =>
      let g1 := reset_variables g in
      let out1 := putc channel out in
      let inp1 := rewind inp in
      transcode (encode_block channel ch) inp1 out1 g1
  end.

(** [main] in mode 'e'. *)
Definition main_e (findSmallestChannel : globals -> Z) (inp : FILE)
    (g : globals) : result (list Z * globals) :=
  match scan inp g with
  | None => OutOfFuel
  | Some (inp1, g1) => commit (findSmallestChannel g1) inp1 [] g1
  end.

(** "// decode": the filtering of one buffer. *)
Definition decode_block (channel ch : Z) (buffer : list Z) (g : globals)
    : list Z * globals :=
  if channel <? breakpoint then
    for_each (fun b g => if negb (ch =? 0) then routed deltaDec ch b g
                         else (b, g)) buffer g
  else
    for_each (fun b g => if negb (ch =? 0) then routed adaptiveDeltaDec ch b g
                         else (b, g)) buffer g.

(** [main] in mode 'd'. *)
Definition main_d (inp : FILE) (g : globals) : result (list Z * globals) :=
  let '(channel, inp1) := getc inp in
  match table_at channel with
  | None => TableOverrun channel
  | Some ch =>
      let g1 := reset_variables g in
      transcode (decode_block channel ch) inp1 [] g1
  end.

End Prepack.

(** ** Observations used in the statements *)

(** The sum of the 256 counts of a histogram row. *)
Definition row_sum (row : list Z) : Z := fold_right Z.add 0 row.

(** The number of bytes read during the scan of a file. *)
Definition sampledByteTotal (inp : FILE) : option Z :=
  match scanned_blocks inp with
  | None => None
  | Some (_, blocks) => Some (Z.of_nat (length (concat blocks)))
  end.

(** Freshly zeroed lane history, weight and lane counter. *)
Definition fresh (g : globals) : Prop :=
  filter_state g = (0, replicate 8 0, replicate 8 0, replicate 8 0)
  /\ d g = 0.

(** The output of a pass, when it returned. *)
Definition output {A : Type} (r : result (list Z * A)) : option (list Z) :=
  match r with
  | Returned (out, _) => Some out
  | _ => None
  end.

(** The bytes of a stream that are still to be read. *)
Definition remaining (f : FILE) : list Z :=
  drop (Z.to_nat (pos f)) (contents f).

(** Two states of the globals that agree on what the filters and the
    lane router read. *)
Definition same_lanes (g g' : globals) : Prop :=
  filter_state g = filter_state g' /\ d g = d g'.

(** A histogram of 15 rows of 256 counts. *)
Definition freq_shape (g : globals) : Prop :=
  length (freq g) = 15%nat /\ Forall (fun row => length row = 256%nat) (freq g).

(** [g'] is [g] with [k] more counts in row [index] of the histogram and
    the other rows as they were. *)
Definition counted (index : nat) (k : Z) (g g' : globals) : Prop :=
  freq_shape g'
  /\ fileLength g' = fileLength g
  /\ forall i : nat,
       row_sum (freq g' !!! i)
       = row_sum (freq g !!! i) + (if decide (i = index) then k else 0).

(** The three lane arrays have their 8 entries. *)
Definition lanes_shape (g : globals) : Prop :=
  length (previous g) = 8%nat
  /\ length (previousByte g) = 8%nat
  /\ length (secondPreviousByte g) = 8%nat.

(** ** The entropy estimate and the selector *)

(** The operations on [double] that [calcEntropy] and
    [findSmallestChannel] use: the conversion of an integer, the
    arithmetic, [log], and the comparisons [!=] and [<].  They are left
    uninterpreted; what is proved of the two functions holds for every
    interpretation that meets the hypotheses named in the statement. *)
Record double_ops (T : Type) : Type := DoubleOps {
  of_long : Z -> T;
  fadd : T -> T -> T;
  fmul : T -> T -> T;
  fdiv : T -> T -> T;
  fneg : T -> T;
  flog : T -> T;
  fne : T -> T -> bool;
  flt : T -> T -> bool
}.
Arguments of_long {T} _ _.
Arguments fadd {T} _ _ _.
Arguments fmul {T} _ _ _.
Arguments fdiv {T} _ _ _.
Arguments fneg {T} _ _.
Arguments flog {T} _ _.
Arguments fne {T} _ _ _.
Arguments flt {T} _ _ _.

(** [calcEntropy]: the sum over the 256 symbols of
    [p * (-log(p) / log(2))], [p = freq[channel][i] / fileLength],
    the symbols with [p == 0] skipped. *)
Definition calcEntropy {T : Type} (ops : double_ops T) (channel : Z)
    (g : globals) : T :=
  fold_left
    (fun entropy i =>
       let probability :=
         fdiv ops
           (of_long ops ((freq g !!! Z.to_nat channel) !!! Z.to_nat i))
           (of_long ops (fileLength g)) in
       if fne ops probability (of_long ops 0)
       then fadd ops entropy
              (fmul ops probability
                 (fdiv ops (fneg ops (flog ops probability))
                    (flog ops (of_long ops 2))))
       else entropy)
    (seqZ 0 256) (of_long ops 0).

(** [findSmallestChannel]: [chanEnt[i] = calcEntropy(i)] for the 15
    candidates, then the scan for the smallest from [index = 0]. *)
Definition findSmallestChannel {T : Type} (ops : double_ops T) (g : globals)
    : Z :=
  let chanEnt := fun i => calcEntropy ops i g in
  fst (fold_left
         (fun '(index, min) i =>
            if flt ops (chanEnt i) min then (i, chanEnt i) else (index, min))
         (seqZ 1 (totalChannels - 1)) (0, chanEnt 0)).

(** An interpretation over the rationals, with [p - 1] in the place of
    [log(p)]: it shows that the hypotheses made on the comparison [<]
    are those of an order. *)
Definition rational_ops : double_ops Q :=
  DoubleOps Q inject_Z Qplus Qmult Qdiv Qopp (fun p => (p - 1)%Q)
    (fun a b => negb (Qeq_bool a b))
    (fun a b => match (a ?= b)%Q with Lt => true | _ => false end).

(** ** Closed forms used in the statements *)

(** The residual that the delta filter of [n] channels gives byte [k] of
    [data] when it starts from a zeroed history: the byte [n] places
    before (0 for the first [n] bytes) minus the byte, as a byte. *)
Definition delta_residual (n : Z) (data : list Z) (k : nat) : Z :=
  let before :=
    if Z.of_nat k <? n then 0 else data !!! (k - Z.to_nat n)%nat in
  to_byte (before - data !!! k).

(** The number of bytes of [l] equal to [v]. *)
Definition occurrences (v : Z) (l : list Z) : Z :=
  Z.of_nat (length (filter (fun b => to_byte b = v) l)).

(** * Properties *)

(** ** Bytes *)

Lemma to_byte_range (x : Z) : is_byte (to_byte x).
Proof. unfold is_byte, to_byte. apply Z.mod_pos_bound. lia. Qed.

Lemma to_byte_id (x : Z) : is_byte x -> to_byte x = x.
Proof. unfold is_byte, to_byte. intros H. apply Z.mod_small. exact H. Qed.

Lemma to_byte_idem (x : Z) : to_byte (to_byte x) = to_byte x.
Proof. apply to_byte_id, to_byte_range. Qed.

(** ** The lane router *)

Lemma modulo_step (n : Z) (g : globals) :
  1 <= n -> 0 <= d g < n ->
  fst (modulo n g) = (d g + 1) mod n
  /\ d (snd (modulo n g)) = fst (modulo n g)
  /\ 0 <= fst (modulo n g) < n.
Proof.
  intros Hn Hd. unfold modulo. cbn [fst snd set_d d].
  destruct (Z.eqb_spec (d g + 1) n) as [E | E].
  - rewrite E, Z.mod_same by lia. lia.
  - rewrite Z.mod_small by lia. lia.
Qed.

Lemma modulo_calls_from (k : nat) (n : Z) :
  1 <= n ->
  forall g, 0 <= d g < n ->
  fst (modulo_calls k n g)
    = map (fun j => (d g + Z.of_nat j) mod n) (seq 1 k)
  /\ d (snd (modulo_calls k n g)) = (d g + Z.of_nat k) mod n.
Proof.
  intros Hn. induction k as [| k IH]; intros g Hd.
  - cbn. rewrite Z.add_0_r, Z.mod_small by lia. auto.
  - cbn [modulo_calls].
    destruct (modulo_step n g Hn Hd) as (Hr & Hd1 & Hrange).
    destruct (modulo n g) as [r g1] eqn:Em. cbn [fst snd] in *.
    assert (Hd1' : 0 <= d g1 < n) by lia.
    destruct (IH g1 Hd1') as [IHl IHd].
    destruct (modulo_calls k n g1) as [rs g2]. cbn [fst snd] in *.
    assert (Hshift : forall j : nat,
               (d g1 + Z.of_nat j) mod n = (d g + Z.of_nat (S j)) mod n).
    { intros j. rewrite Hd1, Hr, Zplus_mod_idemp_l. f_equal. lia. }
    split.
    + cbn [seq map]. f_equal.
      * rewrite Hr. f_equal.
      * rewrite IHl, <- (seq_shift k 1), map_map.
        apply map_ext. intros j. apply Hshift.
    + rewrite IHd. apply Hshift.
Qed.

(** C6.  For a channel count [n] in 1..8 and the counter at 0, the
    [k] first calls of [modulo n] return 1 mod n, 2 mod n, ..., k mod n
    (that is 1, 2, ..., n-1, 0, 1, ...; always 0 when n = 1), the counter
    holds the value last returned, and every value returned is in
    [0, n-1]; one call from a counter below [n] returns the counter
    plus one, wrapped to 0 at [n], and stores it. *)
Theorem modulo_sequence (n : Z) (k : nat) (g : globals) :
  1 <= n <= 8 -> d g = 0 ->
  fst (modulo_calls k n g) = map (fun j => Z.of_nat j mod n) (seq 1 k)
  /\ d (snd (modulo_calls k n g)) = Z.of_nat k mod n
  /\ Forall (fun r => 0 <= r <= n - 1) (fst (modulo_calls k n g))
  /\ (n = 1 -> fst (modulo_calls k n g) = replicate k 0)
  /\ (forall g', 0 <= d g' < n ->
        fst (modulo n g') = (if d g' + 1 =? n then 0 else d g' + 1)
        /\ d (snd (modulo n g')) = fst (modulo n g')).
Proof.
  intros Hn Hd.
  assert (Hd' : 0 <= d g < n) by lia.
  destruct (modulo_calls_from k n ltac:(lia) g Hd') as [Hl Hk].
  rewrite Hd in Hl, Hk. rewrite Z.add_0_l in Hk.
  assert (Hl' : fst (modulo_calls k n g)
                = map (fun j => Z.of_nat j mod n) (seq 1 k)).
  { rewrite Hl. apply map_ext. intros j. now rewrite Z.add_0_l. }
  clear Hl. rename Hl' into Hl.
  assert (Hall : Forall (fun r => 0 <= r <= n - 1) (fst (modulo_calls k n g))).
  { rewrite Hl. apply Forall_forall. intros r Hr.
    apply list_elem_of_In, in_map_iff in Hr. destruct Hr as (j & <- & _).
    pose proof (Z.mod_pos_bound (Z.of_nat j) n ltac:(lia)). lia. }
  split; [exact Hl |]. split; [exact Hk |]. split; [exact Hall |]. split.
  - intros ->. rewrite Hl. clear. generalize 1%nat.
    induction k as [| k IH]; intros s; cbn; [reflexivity |].
    rewrite Z.mod_1_r. f_equal. apply IH.
  - intros g' _. split; reflexivity.
Qed.

Lemma modulo_sequence_witness :
  fst (modulo_calls 7 3 initial_globals) = [1; 2; 0; 1; 2; 0; 1].
Proof.
  destruct (modulo_sequence 3 7 initial_globals) as [H _];
    [lia | reflexivity |].
  rewrite H. reflexivity.
Defined.

(** ** The weight of the adaptive filter *)

Lemma updateWeight_weight (err : Z) (g : globals) :
  -1280 <= weight g <= 1280 ->
  weight (updateWeight err g)
  = if to_byte err <? 127 then Z.min (weight g + 1) 1280
    else if 127 <? to_byte err then Z.max (weight g - 1) (-1280)
    else weight g.
Proof.
  intros Hw. unfold updateWeight. cbn [weight set_weight].
  repeat match goal with
         | |- context [?a <? ?b] => destruct (Z.ltb_spec a b)
         | |- context [?a =? ?b] => destruct (Z.eqb_spec a b)
         end; lia.
Qed.

Lemma updateWeight_bounded (err : Z) (g : globals) :
  -1280 <= weight g <= 1280 -> -1280 <= weight (updateWeight err g) <= 1280.
Proof.
  intros Hw. rewrite updateWeight_weight by exact Hw.
  repeat match goal with
         | |- context [?a <? ?b] => destruct (Z.ltb_spec a b)
         end; lia.
Qed.

Lemma updateWeight_run_bounded (errs : list Z) :
  forall g, -1280 <= weight g <= 1280 ->
            -1280 <= weight (updateWeight_run errs g) <= 1280.
Proof.
  induction errs as [| e errs IH]; intros g Hw; cbn; [exact Hw |].
  apply IH, updateWeight_bounded, Hw.
Qed.

Lemma updateWeight_run_low (errs : list Z) :
  Forall (fun e => 0 <= e < 127) errs ->
  forall g, -1280 <= weight g <= 1280 ->
  weight (updateWeight_run errs g)
  = Z.min (weight g + Z.of_nat (length errs)) 1280.
Proof.
  induction 1 as [| e errs He _ IH]; intros g Hw; cbn [updateWeight_run fold_left].
  - cbn. lia.
  - fold (updateWeight_run errs (updateWeight e g)).
    rewrite IH by (apply updateWeight_bounded, Hw).
    rewrite updateWeight_weight by exact Hw.
    rewrite to_byte_id by (unfold is_byte; lia).
    destruct (Z.ltb_spec e 127); [| lia].
    cbn [length]. lia.
Qed.

Lemma updateWeight_run_high (errs : list Z) :
  Forall (fun e => 127 < e <= 255) errs ->
  forall g, -1280 <= weight g <= 1280 ->
  weight (updateWeight_run errs g)
  = Z.max (weight g - Z.of_nat (length errs)) (-1280).
Proof.
  induction 1 as [| e errs He _ IH]; intros g Hw; cbn [updateWeight_run fold_left].
  - cbn. lia.
  - fold (updateWeight_run errs (updateWeight e g)).
    rewrite IH by (apply updateWeight_bounded, Hw).
    rewrite updateWeight_weight by exact Hw.
    rewrite to_byte_id by (unfold is_byte; lia).
    destruct (Z.ltb_spec e 127); [lia |].
    destruct (Z.ltb_spec 127 e); [| lia].
    cbn [length]. lia.
Qed.

(** C5.  From weight 0, whatever the residuals, the weight is in
    [-1280, 1280] after every update; after a run of [k] residuals all
    below 127 it is [min k 1280], hence exactly 1280 from the 1280th
    on and never 1281; after a run of [k] residuals all above 127 it is
    [max (-k) (-1280)]; a residual 127 leaves it unchanged. *)
Theorem weight_saturation (g : globals) (errs : list Z) :
  weight g = 0 ->
  -1280 <= weight (updateWeight_run errs g) <= 1280
  /\ (Forall (fun e => 0 <= e < 127) errs ->
      weight (updateWeight_run errs g)
      = Z.min (Z.of_nat (length errs)) 1280)
  /\ (Forall (fun e => 127 < e <= 255) errs ->
      weight (updateWeight_run errs g)
      = Z.max (- Z.of_nat (length errs)) (-1280))
  /\ updateWeight 127 (updateWeight_run errs g) = updateWeight_run errs g.
Proof.
  intros H0.
  assert (Hw : -1280 <= weight g <= 1280) by lia.
  pose proof (updateWeight_run_bounded errs g Hw) as Hb.
  split; [exact Hb |]. split; [| split].
  - intros Hlow. rewrite updateWeight_run_low by assumption. now rewrite H0.
  - intros Hhigh. rewrite updateWeight_run_high by assumption. now rewrite H0.
  - pose proof (updateWeight_weight 127 _ Hb) as Hn.
    change (to_byte 127) with 127 in Hn. cbn in Hn.
    revert Hn. generalize (updateWeight_run errs g). intros g' Hn.
    unfold updateWeight in *. destruct g'. cbn in *.
    unfold set_weight. cbn. now rewrite Hn.
Qed.

Lemma weight_saturation_witness :
  weight (updateWeight_run (replicate 1300 5) initial_globals) = 1280
  /\ weight (updateWeight_run (replicate 1300 200) initial_globals) = -1280.
Proof.
  split.
  - destruct (weight_saturation initial_globals (replicate 1300 5) eq_refl)
      as (_ & H & _).
    rewrite H; [reflexivity |]. apply Forall_replicate. lia.
  - destruct (weight_saturation initial_globals (replicate 1300 200) eq_refl)
      as (_ & _ & H & _).
    rewrite H; [reflexivity |]. apply Forall_replicate. lia.
Defined.

(** ** Streams and the block loops *)

Lemma blocksize_pos : (0 < Z.to_nat blocksize)%nat.
Proof. unfold blocksize. lia. Qed.

Lemma fread_spec (n : Z) (f : FILE) :
  0 <= n -> 0 <= pos f ->
  let bs := Z.to_nat n in
  let f' := snd (fread n f) in
  fst (fread n f) = take bs (remaining f)
  /\ remaining f' = drop bs (remaining f)
  /\ contents f' = contents f
  /\ pos f' = pos f + Z.of_nat (Nat.min bs (length (remaining f)))
  /\ eof_ind f' = eof_ind f || (length (remaining f) <? bs)%nat.
Proof.
  intros Hn Hp bs f'. subst f'. unfold fread, remaining.
  cbn [fst snd contents pos eof_ind]. fold bs.
  set (rem := drop (Z.to_nat (pos f)) (contents f)).
  rewrite length_take.
  repeat split.
  - rewrite Z2Nat.inj_add, Nat2Z.id by lia.
    rewrite <- drop_drop. fold rem.
    destruct (Nat.le_gt_cases bs (length rem)) as [Hle | Hgt].
    + now rewrite Nat.min_l by exact Hle.
    + rewrite Nat.min_r by lia.
      rewrite !drop_ge by lia. reflexivity.
  - f_equal.
    destruct (Nat.ltb_spec (length rem) bs); destruct (Z.ltb_spec (Z.of_nat (Nat.min bs (length rem))) n); lia.
Qed.

Section TranscodeLoop.

Variable filter_block : list Z -> globals -> list Z * globals.

(** Filtering a buffer in two pieces is filtering it in one piece:
    nothing but the globals is carried from one block to the next. *)
Hypothesis filter_block_nil : forall g, filter_block [] g = ([], g).
Hypothesis filter_block_app : forall l1 l2 g,
  filter_block (l1 ++ l2) g
  = (fst (filter_block l1 g)
       ++ fst (filter_block l2 (snd (filter_block l1 g))),
     snd (filter_block l2 (snd (filter_block l1 g)))).

Lemma transcode_loop (fuel : nat) :
  forall inp out g,
    feof inp = false -> 0 <= pos inp ->
    (length (remaining inp) + 2 <= fuel)%nat ->
    exists inp',
      while_not_feof fuel (transcode_body filter_block) inp (out, g)
      = Some (inp', (out ++ fst (filter_block (remaining inp) g),
                     snd (filter_block (remaining inp) g))).
Proof.
  induction fuel as [| fuel IH]; intros inp out g Heof Hpos Hfuel; [lia |].
  cbn [while_not_feof]. rewrite Heof. unfold transcode_body at 1.
  pose proof blocksize_pos as Hbs.
  destruct (fread_spec blocksize inp ltac:(unfold blocksize; lia) Hpos)
    as (Hbuf & Hrem & _ & Hp1 & He1).
  destruct (fread blocksize inp) as [buffer inp1]. cbn [fst snd] in *.
  set (bs := Z.to_nat blocksize) in *.
  destruct (filter_block buffer g) as [buffer1 g1] eqn:Efb.
  unfold fwrite.
  assert (Hfb : filter_block (remaining inp) g
                = (buffer1 ++ fst (filter_block (drop bs (remaining inp)) g1),
                   snd (filter_block (drop bs (remaining inp)) g1))).
  { rewrite <- (take_drop bs (remaining inp)) at 1.
    rewrite filter_block_app, <- Hbuf, Efb. reflexivity. }
  rewrite Hfb. cbn [fst snd].
  unfold feof in Heof. rewrite Heof in He1. cbn [orb] in He1.
  destruct (Nat.ltb_spec (length (remaining inp)) bs) as [Hshort | Hfull].
  - (* the read met the end of the file *)
    destruct fuel as [| fuel]; [lia |].
    cbn [while_not_feof]. unfold feof. rewrite He1.
    exists inp1. rewrite drop_ge by lia.
    rewrite filter_block_nil. cbn [fst snd]. now rewrite app_nil_r.
  - destruct (IH inp1 (out ++ buffer1) g1) as [inp' Hloop].
    + exact He1.
    + lia.
    + rewrite Hrem, length_drop. lia.
    + exists inp'. rewrite Hloop, Hrem, app_assoc. reflexivity.
Qed.

Lemma transcode_returns (inp : FILE) (out : list Z) (g : globals) :
  feof inp = false -> 0 <= pos inp ->
  transcode filter_block inp out g
  = Returned (out ++ fst (filter_block (remaining inp) g),
              snd (filter_block (remaining inp) g)).
Proof.
  intros Heof Hpos. unfold transcode.
  destruct (transcode_loop (fuel_for inp) inp out g Heof Hpos) as [inp' ->];
    [| reflexivity].
  unfold fuel_for, remaining. rewrite length_drop. lia.
Qed.

(** With the end-of-file indicator already set the loop is not entered. *)
Lemma transcode_at_eof (inp : FILE) (out : list Z) (g : globals) :
  feof inp = true -> transcode filter_block inp out g = Returned (out, g).
Proof.
  intros Heof. unfold transcode, fuel_for. cbn [while_not_feof].
  now rewrite Heof.
Qed.

End TranscodeLoop.

(** ** The [for] loops over a buffer *)

Lemma for_each_app (f : Z -> globals -> Z * globals) (l1 l2 : list Z) :
  forall g,
    for_each f (l1 ++ l2) g
    = (fst (for_each f l1 g) ++ fst (for_each f l2 (snd (for_each f l1 g))),
       snd (for_each f l2 (snd (for_each f l1 g)))).
Proof.
  induction l1 as [| b l1 IH]; intros g; cbn [for_each app fst snd].
  - now destruct (for_each f l2 g).
  - destruct (f b g) as [b' g1]. rewrite IH.
    destruct (for_each f l1 g1) as [o1 g2]. cbn [fst snd].
    destruct (for_each f l2 g2) as [o2 g3]. reflexivity.
Qed.

Lemma for_each_id (l : list Z) (g : globals) :
  for_each (fun b g => (b, g)) l g = (l, g).
Proof. induction l as [| b l IH]; cbn; [| rewrite IH]; reflexivity. Qed.

Lemma for_each_ext (f f' : Z -> globals -> Z * globals) (l : list Z) :
  (forall b g, f b g = f' b g) -> forall g, for_each f l g = for_each f' l g.
Proof.
  intros Hf. induction l as [| b l IH]; intros g; cbn; [reflexivity |].
  rewrite Hf. destruct (f' b g). now rewrite IH.
Qed.

Lemma for_each_length (f : Z -> globals -> Z * globals) (l : list Z) :
  forall g, length (fst (for_each f l g)) = length l.
Proof.
  induction l as [| b l IH]; intros g; cbn; [reflexivity |].
  destruct (f b g) as [b' g1]. specialize (IH g1).
  destruct (for_each f l g1). cbn in *. now rewrite IH.
Qed.

(** The two source files filter a buffer in the same way: the place of
    the test [ch != 0] makes no difference. *)
Lemma encode_block_same (channel ch : Z) (buffer : list Z) (g : globals) :
  Prepack.encode_block channel ch buffer g
  = Lite.encode_block channel ch buffer g.
Proof.
  unfold Prepack.encode_block, Lite.encode_block.
  destruct (channel <? breakpoint), (ch =? 0); cbn [negb];
    solve [apply for_each_id | apply for_each_ext; reflexivity].
Qed.

Lemma decode_block_same (channel ch : Z) (buffer : list Z) (g : globals) :
  Prepack.decode_block channel ch buffer g
  = Lite.decode_block channel ch buffer g.
Proof.
  unfold Prepack.decode_block, Lite.decode_block.
  destruct (channel <? breakpoint), (ch =? 0); cbn [negb];
    solve [apply for_each_id | apply for_each_ext; reflexivity].
Qed.

Lemma encode_block_nil (channel ch : Z) (g : globals) :
  Lite.encode_block channel ch [] g = ([], g).
Proof.
  unfold Lite.encode_block.
  destruct (channel <? breakpoint), (ch =? 0); reflexivity.
Qed.

Lemma decode_block_nil (channel ch : Z) (g : globals) :
  Lite.decode_block channel ch [] g = ([], g).
Proof.
  unfold Lite.decode_block.
  destruct (channel <? breakpoint), (ch =? 0); reflexivity.
Qed.

Lemma encode_block_app (channel ch : Z) (l1 l2 : list Z) (g : globals) :
  Lite.encode_block channel ch (l1 ++ l2) g
  = (fst (Lite.encode_block channel ch l1 g)
       ++ fst (Lite.encode_block channel ch l2
                 (snd (Lite.encode_block channel ch l1 g))),
     snd (Lite.encode_block channel ch l2
            (snd (Lite.encode_block channel ch l1 g)))).
Proof.
  unfold Lite.encode_block.
  destruct (channel <? breakpoint), (ch =? 0); cbn [negb fst snd];
    solve [reflexivity | apply for_each_app].
Qed.

Lemma decode_block_app (channel ch : Z) (l1 l2 : list Z) (g : globals) :
  Lite.decode_block channel ch (l1 ++ l2) g
  = (fst (Lite.decode_block channel ch l1 g)
       ++ fst (Lite.decode_block channel ch l2
                 (snd (Lite.decode_block channel ch l1 g))),
     snd (Lite.decode_block channel ch l2
            (snd (Lite.decode_block channel ch l1 g)))).
Proof.
  unfold Lite.decode_block.
  destruct (channel <? breakpoint), (ch =? 0); cbn [negb fst snd];
    solve [reflexivity | apply for_each_app].
Qed.

(** ** The passes as functions of the whole input *)

Lemma table_at_range (index : Z) :
  0 <= index <= 14 <-> exists ch, table_at index = Some ch.
Proof.
  unfold table_at. split.
  - intros H. destruct (Z.ltb_spec index 0); [lia |].
    assert (Hn : (Z.to_nat index < length indexToChannel)%nat)
      by (cbn [indexToChannel length]; lia).
    apply lookup_lt_is_Some_2 in Hn. destruct Hn as [ch Hch]. eauto.
  - intros [ch Hch]. destruct (Z.ltb_spec index 0); [discriminate |].
    apply lookup_lt_Some in Hch. cbn [indexToChannel length] in Hch. lia.
Qed.

Lemma reset_variables_fresh (g : globals) :
  fresh g -> reset_variables g = g.
Proof.
  destruct g as [w p pb spb dd fr fl]. unfold fresh, filter_state.
  cbn [weight previous previousByte secondPreviousByte d].
  intros [Hf Hd]. injection Hf as -> -> -> ->. reflexivity.
Qed.

Lemma reset_variables_d (g : globals) : d (reset_variables g) = d g.
Proof. destruct g. reflexivity. Qed.

Lemma getc_fopen_rb (c : Z) (l : list Z) :
  getc (fopen_rb (c :: l)) = (c, File (c :: l) 1 false).
Proof. reflexivity. Qed.

Lemma lite_encode_returns (channel ch : Z) (inp : FILE) (out : list Z)
    (g : globals) :
  table_at channel = Some ch ->
  Lite.encode channel inp out g
  = Returned (out ++ [to_byte channel]
                ++ fst (Lite.encode_block channel ch (contents inp) g),
              snd (Lite.encode_block channel ch (contents inp) g)).
Proof.
  intros Hch. unfold Lite.encode. rewrite Hch.
  rewrite transcode_returns;
    [| apply encode_block_nil | apply encode_block_app
     | reflexivity | cbn; lia].
  change (remaining (rewind inp)) with (contents inp).
  unfold putc. now rewrite <- app_assoc.
Qed.

Lemma lite_decode_returns (channel ch : Z) (code out : list Z) (g : globals) :
  table_at channel = Some ch ->
  Lite.decode (fopen_rb (channel :: code)) out g
  = Returned (out ++ fst (Lite.decode_block channel ch code (reset_variables g)),
              snd (Lite.decode_block channel ch code (reset_variables g))).
Proof.
  intros Hch. unfold Lite.decode. rewrite getc_fopen_rb, Hch.
  rewrite transcode_returns;
    [| apply decode_block_nil | apply decode_block_app
     | reflexivity | cbn; lia].
  reflexivity.
Qed.

Lemma prepack_commit_returns (channel ch : Z) (inp : FILE) (out : list Z)
    (g : globals) :
  table_at channel = Some ch ->
  Prepack.commit channel inp out g
  = Returned
      (out ++ [to_byte channel]
         ++ fst (Lite.encode_block channel ch (contents inp)
                   (reset_variables g)),
       snd (Lite.encode_block channel ch (contents inp) (reset_variables g))).
Proof.
  intros Hch. unfold Prepack.commit. rewrite Hch.
  rewrite transcode_returns;
    [| intros; rewrite encode_block_same; apply encode_block_nil
     | intros; rewrite !encode_block_same; apply encode_block_app
     | reflexivity | cbn; lia].
  change (remaining (rewind inp)) with (contents inp).
  unfold putc. now rewrite encode_block_same, <- app_assoc.
Qed.

Lemma prepack_main_d_returns (channel ch : Z) (code : list Z) (g : globals) :
  table_at channel = Some ch ->
  Prepack.main_d (fopen_rb (channel :: code)) g
  = Returned (fst (Lite.decode_block channel ch code (reset_variables g)),
              snd (Lite.decode_block channel ch code (reset_variables g))).
Proof.
  intros Hch. unfold Prepack.main_d. rewrite getc_fopen_rb, Hch.
  rewrite transcode_returns;
    [| intros; rewrite decode_block_same; apply decode_block_nil
     | intros; rewrite !decode_block_same; apply decode_block_app
     | reflexivity | cbn; lia].
  change (remaining (File (channel :: code) 1 false)) with code.
  now rewrite decode_block_same.
Qed.

(** ** The identity candidate *)

(** C8.  Candidate 0 is a strict pass-through in both files and both
    directions: the commit encode writes the header byte 0 and then the
    input unchanged; the decode of a stream with header 0 writes the
    bytes after the header unchanged.  No filter and no [modulo] call
    is made: the globals at the end are those at the start of the loop
    (the globals at entry for [encode] of [prepack_lite.c]; after the
    "reset variables" loop, which leaves [d] alone, for the others). *)
Theorem candidate0_pass_through (data : list Z) (g : globals) :
  Lite.encode 0 (fopen_rb data) [] g = Returned (0 :: data, g)
  /\ Prepack.commit 0 (fopen_rb data) [] g
     = Returned (0 :: data, reset_variables g)
  /\ Lite.decode (fopen_rb (0 :: data)) [] g
     = Returned (data, reset_variables g)
  /\ Prepack.main_d (fopen_rb (0 :: data)) g
     = Returned (data, reset_variables g)
  /\ d (reset_variables g) = d g.
Proof.
  assert (H0 : table_at 0 = Some 0) by reflexivity.
  repeat apply conj.
  - now rewrite (lite_encode_returns 0 0 _ _ _ H0).
  - now rewrite (prepack_commit_returns 0 0 _ _ _ H0).
  - now rewrite (lite_decode_returns 0 0 _ _ _ H0).
  - now rewrite (prepack_main_d_returns 0 0 _ _ H0).
  - apply reset_variables_d.
Qed.

(** ** Round trip *)

Lemma same_lanes_refl (g : globals) : same_lanes g g.
Proof. split; reflexivity. Qed.

Ltac same_lanes_cases g g' H :=
  destruct g as [w p pb spb dd fr fl], g' as [w' p' pb' spb' dd' fr' fl'];
  destruct H as [Hf Hd]; unfold filter_state in Hf;
  cbn [weight previous previousByte secondPreviousByte d] in Hf, Hd;
  injection Hf as <- <- <- <-; subst dd'.

Lemma byte_cancel (a b : Z) : is_byte b -> to_byte (a - to_byte (a - b)) = b.
Proof.
  intros Hb. unfold to_byte. rewrite Zminus_mod_idemp_r.
  replace (a - (a - b)) with b by lia. now apply Z.mod_small.
Qed.

Lemma routed_delta_roundtrip (ch b : Z) (g g' : globals) :
  same_lanes g g' -> is_byte b ->
  fst (routed deltaDec ch (fst (routed deltaEnc ch b g)) g') = b
  /\ same_lanes (snd (routed deltaEnc ch b g))
                (snd (routed deltaDec ch (fst (routed deltaEnc ch b g)) g')).
Proof.
  intros H Hb. same_lanes_cases g g' H.
  unfold routed, modulo, deltaEnc, deltaDec, same_lanes, filter_state.
  cbn [fst snd set_d set_previous weight previous previousByte
       secondPreviousByte d].
  rewrite to_byte_idem, (to_byte_id b Hb), byte_cancel by exact Hb.
  auto.
Qed.

(** [updateWeight] reads and writes the weight only. *)
Lemma updateWeight_frame (e w : Z) (p pb spb : list Z) (dd : Z)
    (fr : list (list Z)) (fl : Z) :
  updateWeight e (Globals w p pb spb dd fr fl)
  = Globals (weight (updateWeight e (Globals w [] [] [] 0 [] 0)))
            p pb spb dd fr fl.
Proof. reflexivity. Qed.

Lemma adaptiveDeltaEnc_eq (b i w : Z) (p pb spb : list Z) (dd : Z)
    (fr : list (list Z)) (fl : Z) :
  let lane := Z.to_nat i in
  let prediction := to_byte (pb !!! lane - spb !!! lane + pb !!! lane) in
  let sh := Z.shiftr w rate in
  let error := to_byte (sh + (prediction - to_byte b)) in
  adaptiveDeltaEnc b i (Globals w p pb spb dd fr fl)
  = (error,
     Globals (weight (updateWeight error (Globals w [] [] [] 0 [] 0))) p
             (<[lane := to_byte (sh + to_byte b)]> pb)
             (<[lane := pb !!! lane]> spb) dd fr fl).
Proof. reflexivity. Qed.

Lemma adaptiveDeltaDec_eq (e i w : Z) (p pb spb : list Z) (dd : Z)
    (fr : list (list Z)) (fl : Z) :
  let lane := Z.to_nat i in
  let prediction := to_byte (pb !!! lane - spb !!! lane + pb !!! lane) in
  let sh := Z.shiftr w rate in
  let b := to_byte (sh + (prediction - to_byte e)) in
  adaptiveDeltaDec e i (Globals w p pb spb dd fr fl)
  = (b,
     Globals (weight (updateWeight (to_byte e) (Globals w [] [] [] 0 [] 0))) p
             (<[lane := to_byte (sh + b)]> pb)
             (<[lane := pb !!! lane]> spb) dd fr fl).
Proof. reflexivity. Qed.

Lemma routed_adaptive_roundtrip (ch b : Z) (g g' : globals) :
  same_lanes g g' -> is_byte b ->
  fst (routed adaptiveDeltaDec ch
         (fst (routed adaptiveDeltaEnc ch b g)) g') = b
  /\ same_lanes (snd (routed adaptiveDeltaEnc ch b g))
                (snd (routed adaptiveDeltaDec ch
                        (fst (routed adaptiveDeltaEnc ch b g)) g')).
Proof.
  intros H Hb. same_lanes_cases g g' H.
  unfold routed, modulo, set_d.
  cbn [d weight previous previousByte secondPreviousByte freq fileLength].
  rewrite adaptiveDeltaEnc_eq, adaptiveDeltaDec_eq. cbn zeta. cbn [fst snd].
  rewrite !to_byte_idem, (to_byte_id b Hb).
  set (lane := Z.to_nat (if dd + 1 =? ch then 0 else dd + 1)).
  set (prediction := to_byte (pb !!! lane - spb !!! lane + pb !!! lane)).
  set (sh := Z.shiftr w rate).
  assert (Hb' : to_byte (sh + (prediction - to_byte (sh + (prediction - b))))
                = b).
  { replace (sh + (prediction - to_byte (sh + (prediction - b))))
      with ((sh + prediction) - to_byte ((sh + prediction) - b)).
    - now apply byte_cancel.
    - replace (sh + prediction - b) with (sh + (prediction - b)) by lia. lia. }
  rewrite Hb'. split; [reflexivity |]. split; reflexivity.
Qed.

Section ForEachRoundTrip.

Variables enc dec : Z -> globals -> Z * globals.

Hypothesis step_roundtrip : forall b g g',
  same_lanes g g' -> is_byte b ->
  fst (dec (fst (enc b g)) g') = b
  /\ same_lanes (snd (enc b g)) (snd (dec (fst (enc b g)) g')).

Lemma for_each_roundtrip (data : list Z) :
  Forall is_byte data ->
  forall g g', same_lanes g g' ->
  fst (for_each dec (fst (for_each enc data g)) g') = data
  /\ same_lanes (snd (for_each enc data g))
                (snd (for_each dec (fst (for_each enc data g)) g')).
Proof.
  induction 1 as [| b data Hb _ IH]; intros g g' Hs; cbn [for_each fst snd].
  - auto.
  - destruct (step_roundtrip b g g' Hs Hb) as [Hfst Hsnd].
    destruct (enc b g) as [e g1]. cbn [fst snd] in *.
    destruct (IH g1 (snd (dec e g')) Hsnd) as [IHfst IHsnd].
    destruct (for_each enc data g1) as [es g2]. cbn [for_each fst snd] in *.
    destruct (dec e g') as [b' g1']. cbn [fst snd] in *. subst b'.
    destruct (for_each dec es g1') as [bs g2']. cbn [fst snd] in *.
    subst bs. auto.
Qed.

End ForEachRoundTrip.

Lemma block_roundtrip (channel ch : Z) (data : list Z) (g g' : globals) :
  Forall is_byte data -> same_lanes g g' ->
  fst (Lite.decode_block channel ch
         (fst (Lite.encode_block channel ch data g)) g') = data.
Proof.
  intros Hdata Hs. unfold Lite.decode_block, Lite.encode_block.
  destruct (channel <? breakpoint), (ch =? 0); cbn [negb fst snd];
    try reflexivity.
  - apply for_each_roundtrip; auto using routed_delta_roundtrip.
  - apply for_each_roundtrip; auto using routed_adaptive_roundtrip.
Qed.

Lemma encode_block_length (channel ch : Z) (data : list Z) (g : globals) :
  length (fst (Lite.encode_block channel ch data g)) = length data.
Proof.
  unfold Lite.encode_block.
  destruct (channel <? breakpoint), (ch =? 0); cbn [negb fst snd];
    solve [reflexivity | apply for_each_length].
Qed.

(** C1.  For every candidate index 0..14 and every sequence of bytes
    (the empty one included), with the lane history, the weight and the
    lane counter freshly zeroed on both sides, the commit encode writes
    the header byte holding the index followed by as many bytes as the
    input, and the decode of that output writes the input back; this for
    [encode]/[decode] of [prepack_lite.c] and for the commit and decode
    paths of [main] in [prepack.c]. *)
Theorem round_trip (idx : Z) (data : list Z) (g_enc g_dec : globals) :
  0 <= idx <= 14 -> Forall is_byte data -> fresh g_enc -> fresh g_dec ->
  exists code g1 g2 g3 g4,
    Lite.encode idx (fopen_rb data) [] g_enc = Returned (idx :: code, g1)
    /\ length code = length data
    /\ Lite.decode (fopen_rb (idx :: code)) [] g_dec = Returned (data, g2)
    /\ Prepack.commit idx (fopen_rb data) [] g_enc
       = Returned (idx :: code, g3)
    /\ Prepack.main_d (fopen_rb (idx :: code)) g_dec = Returned (data, g4).
Proof.
  intros Hidx Hdata He Hd.
  destruct (proj1 (table_at_range idx) Hidx) as [ch Hch].
  assert (Hs : same_lanes g_enc g_dec).
  { destruct He as [He1 He2], Hd as [Hd1 Hd2]. split; congruence. }
  assert (Hhdr : to_byte idx = idx) by (apply to_byte_id; unfold is_byte; lia).
  exists (fst (Lite.encode_block idx ch data g_enc)).
  do 4 eexists.
  rewrite (lite_encode_returns idx ch _ _ _ Hch).
  rewrite (lite_decode_returns idx ch _ _ _ Hch).
  rewrite (prepack_commit_returns idx ch _ _ _ Hch).
  rewrite (prepack_main_d_returns idx ch _ _ Hch).
  rewrite !reset_variables_fresh by assumption.
  rewrite Hhdr. cbn [fopen_rb contents app].
  rewrite (block_roundtrip idx ch data g_enc g_dec Hdata Hs).
  repeat apply conj; try reflexivity.
  apply encode_block_length.
Qed.

Lemma round_trip_witness :
  exists code g1 g2 g3 g4,
    Lite.encode 11 (fopen_rb [10; 20; 30; 10; 20; 30; 11]) [] initial_globals
    = Returned (11 :: code, g1)
    /\ length code = 7%nat
    /\ Lite.decode (fopen_rb (11 :: code)) [] initial_globals
       = Returned ([10; 20; 30; 10; 20; 30; 11], g2)
    /\ Prepack.commit 11 (fopen_rb [10; 20; 30; 10; 20; 30; 11]) []
         initial_globals = Returned (11 :: code, g3)
    /\ Prepack.main_d (fopen_rb (11 :: code)) initial_globals
       = Returned ([10; 20; 30; 10; 20; 30; 11], g4).
Proof.
  apply (round_trip 11 [10; 20; 30; 10; 20; 30; 11]
           initial_globals initial_globals).
  - lia.
  - repeat constructor; unfold is_byte; lia.
  - split; reflexivity.
  - split; reflexivity.
Defined.

(** ** The histogram *)

Lemma row_sum_incr (row : list Z) :
  forall i : nat, (i < length row)%nat ->
  row_sum (<[i := row !!! i + 1]> row) = row_sum row + 1.
Proof.
  induction row as [| x row IH]; intros i Hi; cbn [length] in Hi; [lia |].
  destruct i as [| i].
  - cbn. lia.
  - change (row_sum (x :: <[i := row !!! i + 1]> row) = row_sum (x :: row) + 1).
    cbn [row_sum fold_right]. fold (row_sum row).
    fold (row_sum (<[i := row !!! i + 1]> row)).
    rewrite IH by lia. lia.
Qed.

Lemma counted_refl (index : nat) (g : globals) :
  freq_shape g -> counted index 0 g g.
Proof.
  intros Hs. split; [exact Hs |]. split; [reflexivity |].
  intros i. destruct (decide (i = index)); lia.
Qed.

Lemma counted_same_freq (index : nat) (g g' : globals) :
  freq_shape g -> freq g' = freq g -> fileLength g' = fileLength g ->
  counted index 0 g g'.
Proof.
  intros Hs Hf Hl. unfold counted, freq_shape. rewrite Hf.
  split; [exact Hs |]. split; [exact Hl |].
  intros i. destruct (decide (i = index)); lia.
Qed.

Lemma counted_trans (index : nat) (k1 k2 : Z) (g g1 g2 : globals) :
  counted index k1 g g1 -> counted index k2 g1 g2 ->
  counted index (k1 + k2) g g2.
Proof.
  intros (_ & Hl1 & Hr1) (Hs2 & Hl2 & Hr2).
  split; [exact Hs2 |]. split; [congruence |].
  intros i. rewrite Hr2, Hr1. destruct (decide (i = index)); lia.
Qed.

Lemma count_counted (current channel : Z) (g : globals) :
  freq_shape g -> 0 <= channel < 15 ->
  counted (Z.to_nat channel) 1 g (count current channel g).
Proof.
  intros [Hlen Hrows] Hch. unfold count, counted, freq_shape.
  cbn [freq set_freq fileLength].
  set (ch := Z.to_nat channel). set (cur := Z.to_nat (to_byte current)).
  assert (Hch' : (ch < length (freq g))%nat) by lia.
  assert (Hrow : length (freq g !!! ch) = 256%nat)
    by (apply (Forall_lookup_total_1 _ _ _ Hrows), Hch').
  assert (Hcur : (cur < length (freq g !!! ch))%nat).
  { pose proof (to_byte_range current) as Hb. unfold is_byte in Hb.
    subst cur. lia. }
  split; [| split; [reflexivity |]].
  - rewrite length_insert. split; [exact Hlen |].
    apply Forall_insert; [exact Hrows |]. now rewrite length_insert.
  - intros i. destruct (decide (i = ch)) as [-> | Hne].
    + rewrite list_lookup_total_insert_eq by exact Hch'.
      now apply row_sum_incr.
    + rewrite list_lookup_total_insert_ne by congruence. lia.
Qed.

Ltac scan_byte_cases split index channel :=
  unfold scan_byte, routed, modulo, deltaEnc, adaptiveDeltaEnc, updateWeight;
  destruct (channel =? 0) eqn:?;
  [| destruct (Z.ltb_spec index split);
     [| destruct (Z.leb_spec split index); [| lia]]].

Lemma scan_byte_counted (split index channel b : Z) (g : globals) :
  freq_shape g -> 0 <= index < 15 ->
  counted (Z.to_nat index) 1 g (scan_byte split index channel b g).
Proof.
  intros Hs Hi. scan_byte_cases split index channel;
    cbn beta iota zeta;
    (eapply (counted_trans _ 0 1);
     [| apply count_counted; [| exact Hi]]);
    try (apply counted_same_freq; [exact Hs | reflexivity | reflexivity]);
    exact Hs.
Qed.

Lemma scan_candidate_bytes_counted (split index : Z) (buffer : list Z) :
  0 <= index < 15 ->
  forall g, freq_shape g ->
  counted (Z.to_nat index) (Z.of_nat (length buffer)) g
          (scan_candidate_bytes split index buffer g).
Proof.
  intros Hi. unfold scan_candidate_bytes.
  induction buffer as [| b buffer IH]; intros g Hs; cbn [fold_left length].
  - now apply counted_refl.
  - pose proof (scan_byte_counted split index
                  (indexToChannel !!! Z.to_nat index) b g Hs Hi) as H1.
    replace (Z.of_nat (S (length buffer)))
      with (1 + Z.of_nat (length buffer)) by lia.
    eapply counted_trans; [exact H1 |]. apply IH. apply H1.
Qed.

Lemma scan_candidate_counted (split index : Z) (buffer : list Z)
    (g : globals) :
  0 <= index < 15 -> freq_shape g ->
  counted (Z.to_nat index) (Z.of_nat (length buffer)) g
          (scan_candidate split buffer g index).
Proof.
  intros Hi Hs. unfold scan_candidate.
  destruct (scan_candidate_bytes_counted split index buffer Hi g Hs)
    as (H1 & H2 & H3).
  split; [exact H1 |]. split; [exact H2 |]. exact H3.
Qed.

Lemma scan_candidates_counted (split : Z) (buffer : list Z) (l : list Z) :
  Forall (fun j => 0 <= j < 15) l ->
  forall g, freq_shape g ->
  let g' := fold_left (scan_candidate split buffer) l g in
  freq_shape g'
  /\ fileLength g' = fileLength g
  /\ forall i : nat,
       row_sum (freq g' !!! i)
       = row_sum (freq g !!! i)
         + Z.of_nat (length buffer)
           * Z.of_nat (length (filter (fun j => Z.to_nat j = i) l)).
Proof.
  induction 1 as [| j l Hj _ IH]; intros g Hs; cbn [fold_left].
  - cbn. split; [exact Hs |]. split; [reflexivity |]. intros i. lia.
  - destruct (scan_candidate_counted split j buffer g Hj Hs)
      as (Hs1 & Hl1 & Hr1).
    destruct (IH _ Hs1) as (Hs2 & Hl2 & Hr2).
    split; [exact Hs2 |]. split; [congruence |].
    intros i. rewrite Hr2, Hr1, filter_cons.
    destruct (decide (Z.to_nat j = i)) as [E | E];
      destruct (decide (i = Z.to_nat j)); try congruence;
      cbn [length]; lia.
Qed.

Lemma scan_block_counted (split : Z) (buffer : list Z) (g : globals) :
  freq_shape g ->
  freq_shape (scan_block split buffer g)
  /\ fileLength (scan_block split buffer g) = fileLength g
  /\ forall i : nat, (i < 15)%nat ->
       row_sum (freq (scan_block split buffer g) !!! i)
       = row_sum (freq g !!! i) + Z.of_nat (length buffer).
Proof.
  intros Hs. unfold scan_block.
  assert (Hall : Forall (fun j => 0 <= j < 15) (seqZ 0 totalChannels)).
  { apply Forall_forall. intros j Hj. apply elem_of_seqZ in Hj.
    unfold totalChannels in Hj. lia. }
  destruct (scan_candidates_counted split buffer _ Hall g Hs)
    as (Hs1 & Hl1 & Hr1).
  split; [exact Hs1 |]. split; [exact Hl1 |].
  intros i Hi. rewrite Hr1.
  replace (length (filter (fun j => Z.to_nat j = i) (seqZ 0 totalChannels)))
    with 1%nat; [lia |].
  do 15 (destruct i as [| i]; [reflexivity |]). lia.
Qed.

Lemma scan_blocks_counted (split : Z) (blocks : list (list Z)) :
  forall g, freq_shape g ->
  let g' := fold_left (fun g buffer => scan_block split buffer g) blocks g in
  freq_shape g'
  /\ fileLength g' = fileLength g
  /\ forall i : nat, (i < 15)%nat ->
       row_sum (freq g' !!! i)
       = row_sum (freq g !!! i) + Z.of_nat (length (concat blocks)).
Proof.
  induction blocks as [| buffer blocks IH]; intros g Hs; cbn [fold_left].
  - cbn. split; [exact Hs |]. split; [reflexivity |]. intros i _. lia.
  - destruct (scan_block_counted split buffer g Hs) as (Hs1 & Hl1 & Hr1).
    destruct (IH _ Hs1) as (Hs2 & Hl2 & Hr2).
    split; [exact Hs2 |]. split; [congruence |].
    intros i Hi. rewrite Hr2, Hr1 by exact Hi.
    cbn [concat]. rewrite length_app. lia.
Qed.

(** ** The scan loop *)

Section WhileSimulation.

Context {A B : Type}.
Variable R : A -> B -> Prop.
Variable bodyA : FILE -> A -> FILE * A.
Variable bodyB : FILE -> B -> FILE * B.

Hypothesis body_sim : forall inp a b,
  R a b ->
  fst (bodyA inp a) = fst (bodyB inp b)
  /\ R (snd (bodyA inp a)) (snd (bodyB inp b)).

(** Two loops over the same stream whose bodies move the stream in the
    same way stop together, in related states. *)
Lemma while_simulation (fuel : nat) :
  forall inp a b inp' b',
    R a b ->
    while_not_feof fuel bodyB inp b = Some (inp', b') ->
    exists a', while_not_feof fuel bodyA inp a = Some (inp', a') /\ R a' b'.
Proof.
  induction fuel as [| fuel IH]; intros inp a b inp' b' HR Hb;
    cbn [while_not_feof] in *; [discriminate |].
  destruct (feof inp).
  - injection Hb as <- <-. eauto.
  - destruct (body_sim inp a b HR) as [Hinp HR1].
    destruct (bodyA inp a) as [ia a1], (bodyB inp b) as [ib b1].
    cbn [fst snd] in *. subst ib. eauto.
Qed.

End WhileSimulation.

Lemma scan_input_blocks (split : Z) (inp inp' : FILE) (g : globals)
    (blocks : list (list Z)) :
  scanned_blocks inp = Some (inp', blocks) ->
  scan_input split inp g
  = Some (inp',
          fold_left (fun g buffer => scan_block split buffer g) blocks
            (set_fileLength (Z.of_nat (length (contents inp))) g)).
Proof.
  unfold scanned_blocks, scan_input. intros Hb.
  set (g1 := set_fileLength (ftell (fseek_end inp)) g).
  destruct (while_simulation
              (fun g' acc =>
                 g' = fold_left (fun g buffer => scan_block split buffer g)
                        acc g1)
              (scan_body split (fileLength g1))
              (blocks_body (ftell (fseek_end inp)))) with
      (fuel := fuel_for (fseek_set 0 (fseek_end inp)))
      (inp := fseek_set 0 (fseek_end inp)) (a := g1)
      (b := @nil (list Z)) (inp' := inp') (b' := blocks)
    as (g' & Hg' & ->).
  - intros f a b ->. unfold scan_body, blocks_body.
    destruct (fread blocksize f) as [buffer f1]. cbn [fst snd].
    split; [reflexivity |]. now rewrite fold_left_app.
  - reflexivity.
  - exact Hb.
  - exact Hg'.
Qed.

Lemma remaining_length (f : FILE) :
  0 <= pos f <= Z.of_nat (length (contents f)) ->
  Z.of_nat (length (remaining f)) = Z.of_nat (length (contents f)) - pos f.
Proof. intros H. unfold remaining. rewrite length_drop. lia. Qed.

Section BlocksLoop.

Variable data : list Z.
Let L : Z := Z.of_nat (length data).

(** The loop of the scan returns; it reads no more bytes than the file
    holds; and when the file has at most [blocksize * (boost + 1)]
    bytes it never strides, so it reads every byte once. *)
Lemma blocks_loop (fuel : nat) :
  forall inp acc,
    contents inp = data -> 0 <= pos inp <= L ->
    (if feof inp then 1 <= fuel
     else Z.to_nat (L - pos inp) + 2 <= fuel)%nat ->
    exists inp' blocks,
      while_not_feof fuel (blocks_body L) inp acc = Some (inp', acc ++ blocks)
      /\ contents inp' = data
      /\ (feof inp = true -> blocks = [])
      /\ (feof inp = false -> blocks <> [])
      /\ Z.of_nat (length (concat blocks)) <= L - pos inp
      /\ (L <= blocksize * (boost + 1) -> feof inp = false ->
          concat blocks = remaining inp).
Proof.
  induction fuel as [| fuel IH]; intros inp acc Hc Hp Hfuel.
  { destruct (feof inp); lia. }
  cbn [while_not_feof]. destruct (feof inp) eqn:Heof.
  { exists inp, []. rewrite app_nil_r. cbn [concat length].
    repeat apply conj; try reflexivity; try assumption; try lia;
      try (intros; discriminate). }
  unfold blocks_body at 1.
  destruct (fread_spec blocksize inp ltac:(unfold blocksize; lia)
              ltac:(lia)) as (Hbuf & Hrem & Hc1 & Hp1 & He1).
  pose proof (remaining_length inp) as Hlen. rewrite Hc in Hlen.
  fold L in Hlen. specialize (Hlen Hp).
  destruct (fread blocksize inp) as [buffer inp1]. cbn [fst snd] in *.
  unfold feof in Heof. rewrite Heof in He1. cbn [orb] in He1.
  assert (Hbs : Z.of_nat (Z.to_nat blocksize) = blocksize)
    by (unfold blocksize; lia).
  assert (Hbpos : 0 < blocksize * boost) by (unfold blocksize, boost; lia).
  set (bs := Z.to_nat blocksize) in *.
  assert (Hblen : length buffer = Nat.min bs (length (remaining inp)))
    by (rewrite Hbuf; apply length_take).
  unfold ftell.
  destruct (Z.ltb_spec (pos inp1 + blocksize * boost) L) as [Hstride | Hstay].
  - (* room to stride *)
    destruct (IH (fseek_cur (blocksize * boost) inp1) (acc ++ [buffer]))
      as (inp' & blocks & Hloop & Hc' & _ & _ & Hsum & _).
    + rewrite <- Hc. exact Hc1.
    + cbn [fseek_cur pos]. lia.
    + cbn [fseek_cur feof eof_ind pos]. lia.
    + exists inp', (buffer :: blocks). rewrite Hloop, <- app_assoc.
      cbn [fseek_cur pos] in Hsum.
      repeat apply conj; try reflexivity; try assumption.
      * intros; discriminate.
      * intros _; discriminate.
      * cbn [concat]. rewrite length_app. lia.
      * intros Hsmall _. exfalso.
        unfold blocksize, boost in *. lia.
  - destruct (IH inp1 (acc ++ [buffer]))
      as (inp' & blocks & Hloop & Hc' & Hnil & _ & Hsum & Hall).
    + rewrite <- Hc. exact Hc1.
    + lia.
    + unfold feof. rewrite He1.
      destruct (Nat.ltb_spec (length (remaining inp)) bs); lia.
    + exists inp', (buffer :: blocks). rewrite Hloop, <- app_assoc.
      repeat apply conj; try reflexivity; try assumption.
      * intros; discriminate.
      * intros _; discriminate.
      * cbn [concat]. rewrite length_app. lia.
      * intros Hsmall _. cbn [concat].
        unfold feof in Hnil, Hall. rewrite He1 in Hnil, Hall.
        destruct (Nat.ltb_spec (length (remaining inp)) bs) as [Hs | Hf].
        -- rewrite (Hnil eq_refl), app_nil_r, Hbuf.
           apply take_ge. lia.
        -- rewrite (Hall Hsmall eq_refl), Hrem, Hbuf.
           apply take_drop.
Qed.

End BlocksLoop.

Lemma scanned_blocks_returns (inp : FILE) :
  exists inp' blocks,
    scanned_blocks inp = Some (inp', blocks)
    /\ contents inp' = contents inp
    /\ blocks <> []
    /\ Z.of_nat (length (concat blocks)) <= Z.of_nat (length (contents inp))
    /\ (Z.of_nat (length (contents inp)) <= blocksize * (boost + 1) ->
        concat blocks = contents inp).
Proof.
  unfold scanned_blocks.
  destruct (blocks_loop (contents inp)
              (fuel_for (fseek_set 0 (fseek_end inp)))
              (fseek_set 0 (fseek_end inp)) [])
    as (inp' & blocks & Hloop & Hc & _ & Hne & Hsum & Hall).
  - reflexivity.
  - cbn [fseek_set pos]. lia.
  - unfold fuel_for, feof. cbn. lia.
  - exists inp', blocks. cbn [app] in Hloop.
    split; [exact Hloop |]. split; [exact Hc |].
    split; [exact (Hne eq_refl) |].
    cbn [fseek_set pos] in Hsum.
    split; [lia |]. intros Hsmall. now rewrite (Hall Hsmall eq_refl).
Qed.

(** ** The probabilities of [calcEntropy] *)

Lemma probability_sum (D : Q) (row : list Z) :
  forall pre : list Z,
    (fold_right
       (fun i acc => inject_Z ((pre ++ row) !!! Z.to_nat i) / D + acc) 0
       (seqZ (Z.of_nat (length pre)) (Z.of_nat (length row)))
     == inject_Z (row_sum row) / D)%Q.
Proof.
  induction row as [| x row IH]; intros pre.
  - change (0 == 0 / D)%Q. unfold Qdiv. ring.
  - rewrite seqZ_cons by (cbn [length]; lia).
    cbn [fold_right].
    replace (Z.pred (Z.of_nat (length (x :: row))))
      with (Z.of_nat (length row)) by (cbn [length]; lia).
    replace (Z.succ (Z.of_nat (length pre)))
      with (Z.of_nat (length (pre ++ [x]))) by (rewrite length_app; cbn; lia).
    rewrite Nat2Z.id.
    replace ((pre ++ x :: row) !!! length pre) with x
      by (symmetry; apply list_lookup_total_middle; reflexivity).
    replace (pre ++ x :: row) with ((pre ++ [x]) ++ row)
      by (now rewrite <- app_assoc).
    rewrite IH.
    change (row_sum (x :: row)) with (x + row_sum row).
    rewrite inject_Z_plus. unfold Qdiv. ring.
Qed.

Lemma probability_total_row (channel : Z) (g : globals) :
  length (freq g !!! Z.to_nat channel) = 256%nat ->
  (probability_total channel g
   == inject_Z (row_sum (freq g !!! Z.to_nat channel))
      / inject_Z (fileLength g))%Q.
Proof.
  intros Hlen. unfold probability_total, charProbability.
  pose proof (probability_sum (inject_Z (fileLength g))
                (freq g !!! Z.to_nat channel) []) as H.
  rewrite Hlen in H. exact H.
Qed.

Lemma initial_freq_shape : freq_shape initial_globals.
Proof.
  split; [reflexivity |]. apply Forall_replicate. reflexivity.
Qed.

Lemma initial_row_sum (i : nat) :
  (i < 15)%nat -> row_sum (freq initial_globals !!! i) = 0.
Proof. intros Hi. do 15 (destruct i as [| i]; [reflexivity |]). lia. Qed.

(** What the scan leaves in the globals, for either value of the switch
    between the filter families. *)
Lemma scan_input_histogram (split : Z) (data : list Z) :
  exists inp g sampled,
    scan_input split (fopen_rb data) initial_globals = Some (inp, g)
    /\ sampledByteTotal (fopen_rb data) = Some sampled
    /\ fileLength g = Z.of_nat (length data)
    /\ freq_shape g
    /\ (forall i : nat, (i < 15)%nat -> row_sum (freq g !!! i) = sampled)
    /\ sampled <= Z.of_nat (length data)
    /\ (Z.of_nat (length data) <= blocksize * (boost + 1) ->
        sampled = Z.of_nat (length data)).
Proof.
  destruct (scanned_blocks_returns (fopen_rb data))
    as (inp & blocks & Hb & _ & _ & Hle & Hall).
  cbn [fopen_rb contents] in Hle, Hall.
  pose proof (scan_input_blocks split _ _ initial_globals _ Hb) as Hscan.
  cbn [fopen_rb contents] in Hscan.
  set (g0 := set_fileLength (Z.of_nat (length data)) initial_globals) in *.
  destruct (scan_blocks_counted split blocks g0 initial_freq_shape)
    as (Hs & Hl & Hr).
  eexists inp, _, (Z.of_nat (length (concat blocks))).
  split; [exact Hscan |].
  split; [unfold sampledByteTotal; now rewrite Hb |].
  split; [exact Hl |]. split; [exact Hs |].
  split; [| split; [exact Hle |]].
  - intros i Hi. rewrite (Hr i Hi).
    change (freq g0) with (freq initial_globals).
    rewrite initial_row_sum by exact Hi. lia.
  - intros Hsmall. now rewrite (Hall Hsmall).
Qed.

(** The sum of the probabilities of a candidate after the scan. *)
Lemma scan_probability_total (split : Z) (data : list Z) (channel : Z) :
  0 <= channel < 15 ->
  exists inp g sampled,
    scan_input split (fopen_rb data) initial_globals = Some (inp, g)
    /\ sampledByteTotal (fopen_rb data) = Some sampled
    /\ fileLength g = Z.of_nat (length data)
    /\ row_sum (freq g !!! Z.to_nat channel) = sampled
    /\ (probability_total channel g
        == inject_Z sampled / inject_Z (Z.of_nat (length data)))%Q
    /\ sampled <= Z.of_nat (length data)
    /\ (Z.of_nat (length data) <= blocksize * (boost + 1) ->
        sampled = Z.of_nat (length data)).
Proof.
  intros Hch.
  destruct (scan_input_histogram split data)
    as (inp & g & sampled & Hscan & Hsam & Hl & Hs & Hr & Hle & Hall).
  assert (Hrow : length (freq g !!! Z.to_nat channel) = 256%nat).
  { destruct Hs as [Hn Hrows].
    apply (Forall_lookup_total_1 _ _ _ Hrows). lia. }
  exists inp, g, sampled.
  split; [exact Hscan |]. split; [exact Hsam |]. split; [exact Hl |].
  split; [apply Hr; lia |]. split; [| split; [exact Hle | exact Hall]].
  rewrite (probability_total_row channel g Hrow), Hl, Hr by lia.
  reflexivity.
Qed.

(** C2, as the code has it.  The probability of a symbol is its count
    divided by [fileLength], the length of the whole file found by
    seeking to its end, whatever part of the file the scan read.  The
    probabilities of the 256 symbols of a candidate therefore sum to
    (bytes read during the scan) / (file length); the scan reads at
    most the whole file, and reads all of it when the file has at most
    [blocksize * (boost + 1)] = 614400 bytes, in which case the sum
    is 1. *)
Theorem probability_denominator (split : Z) (data : list Z) (channel : Z) :
  data <> [] -> 0 <= channel < 15 ->
  exists inp g sampled,
    scan_input split (fopen_rb data) initial_globals = Some (inp, g)
    /\ sampledByteTotal (fopen_rb data) = Some sampled
    /\ fileLength g = Z.of_nat (length data)
    /\ (forall i,
          charProbability channel i g
          = (inject_Z ((freq g !!! Z.to_nat channel) !!! Z.to_nat i)
             / inject_Z (Z.of_nat (length data)))%Q)
    /\ (probability_total channel g
        == inject_Z sampled / inject_Z (Z.of_nat (length data)))%Q
    /\ sampled <= Z.of_nat (length data)
    /\ (Z.of_nat (length data) <= blocksize * (boost + 1) ->
        sampled = Z.of_nat (length data)
        /\ (probability_total channel g == 1)%Q).
Proof.
  intros Hne Hch.
  destruct (scan_probability_total split data channel Hch)
    as (inp & g & sampled & Hscan & Hsam & Hl & _ & Htot & Hle & Hall).
  exists inp, g, sampled.
  split; [exact Hscan |]. split; [exact Hsam |]. split; [exact Hl |].
  split; [| split; [exact Htot |]; split; [exact Hle |]].
  - intros i. unfold charProbability. now rewrite Hl.
  - intros Hsmall. split; [exact (Hall Hsmall) |].
    rewrite Htot, (Hall Hsmall). apply Qmult_inv_r.
    assert (Hpos : 0 < Z.of_nat (length data))
      by (destruct data; [congruence | cbn [length]; lia]).
    intros H0. unfold Qeq in H0. cbn in H0. lia.
Qed.

Lemma probability_denominator_witness :
  exists inp g sampled,
    scan_input breakpoint (fopen_rb [1; 2; 3]) initial_globals = Some (inp, g)
    /\ sampledByteTotal (fopen_rb [1; 2; 3]) = Some sampled
    /\ fileLength g = 3
    /\ (forall i,
          charProbability 3 i g
          = (inject_Z ((freq g !!! 3%nat) !!! Z.to_nat i) / inject_Z 3)%Q)
    /\ (probability_total 3 g == inject_Z sampled / inject_Z 3)%Q
    /\ sampled <= 3
    /\ (3 <= blocksize * (boost + 1) ->
        sampled = 3 /\ (probability_total 3 g == 1)%Q).
Proof.
  apply (probability_denominator breakpoint [1; 2; 3] 3).
  - discriminate.
  - lia.
Defined.

(** C2 as stated fails: on a file of 614401 zero bytes the scan reads
    the first block, strides over 24 blocks and reads the last byte,
    24577 bytes in all, yet every count is divided by 614401, so the
    probabilities of a candidate do not sum to 1. *)
Lemma probability_denominator_counterexample :
  exists inp g,
    Prepack.scan (fopen_rb (replicate (Z.to_nat 614401) 0)) initial_globals
    = Some (inp, g)
    /\ sampledByteTotal (fopen_rb (replicate (Z.to_nat 614401) 0))
       = Some 24577
    /\ fileLength g = 614401
    /\ row_sum (freq g !!! 0%nat) = 24577
    /\ ~ (probability_total 0 g == 1)%Q.
Proof.
  destruct (scan_probability_total breakpoint
              (replicate (Z.to_nat 614401) 0) 0 ltac:(lia))
    as (inp & g & sampled & Hscan & Hsam & Hl & Hr & Htot & _).
  assert (Hs : sampledByteTotal (fopen_rb (replicate (Z.to_nat 614401) 0))
               = Some 24577) by (vm_compute; reflexivity).
  rewrite Hs in Hsam. injection Hsam as <-.
  rewrite length_replicate, Z2Nat.id in Hl, Htot by lia.
  exists inp, g. repeat apply conj.
  - exact Hscan.
  - exact Hs.
  - exact Hl.
  - exact Hr.
  - rewrite Htot. intros H. unfold Qeq in H. cbn in H. discriminate.
Qed.

(** ** The lane counter during the scan *)

Lemma channel_of_index (index : Z) :
  1 <= index <= 14 -> 1 <= indexToChannel !!! Z.to_nat index <= 8.
Proof.
  intros H. remember (Z.to_nat index) as k eqn:Ek.
  assert (Hk : (1 <= k <= 14)%nat) by lia. clear Ek H.
  destruct k as [| k]; [lia |].
  do 14 (destruct k as [| k]; [cbn; lia |]). lia.
Qed.

Lemma scan_byte_d (split index channel b : Z) (g : globals) :
  d (scan_byte split index channel b g)
  = if channel =? 0 then d g
    else if d g + 1 =? channel then 0 else d g + 1.
Proof.
  unfold scan_byte. destruct (channel =? 0); [reflexivity |].
  destruct (index <? split) eqn:E; [reflexivity |].
  destruct (Z.leb_spec split index) as [_ | Hlt]; [reflexivity |].
  apply Z.ltb_ge in E. lia.
Qed.

Lemma scan_candidate_bytes_d (split index : Z) (buffer : list Z) :
  let n := indexToChannel !!! Z.to_nat index in
  1 <= n ->
  forall g, 0 <= d g < n ->
  d (scan_candidate_bytes split index buffer g)
  = (d g + Z.of_nat (length buffer)) mod n.
Proof.
  intros n Hn. unfold scan_candidate_bytes. fold n.
  induction buffer as [| b buffer IH]; intros g Hd; cbn [fold_left length].
  - rewrite Z.add_0_r, Z.mod_small by lia. reflexivity.
  - pose proof (scan_byte_d split index n b g) as Hb.
    destruct (Z.eqb_spec n 0) as [? | _]; [lia |].
    rewrite IH.
    + rewrite Hb. destruct (Z.eqb_spec (d g + 1) n) as [E | E].
      * replace (d g + Z.of_nat (S (length buffer)))
          with (Z.of_nat (length buffer) + 1 * n) by lia.
        now rewrite Z.mod_add by lia.
      * f_equal. lia.
    + rewrite Hb. destruct (Z.eqb_spec (d g + 1) n); lia.
Qed.

Lemma scan_candidate_d (split : Z) (buffer : list Z) (g : globals)
    (index : Z) :
  d (scan_candidate split buffer g index) = 0.
Proof. reflexivity. Qed.

Lemma scan_upto_succ (split index : Z) (buffer : list Z) (g : globals) :
  0 <= index ->
  scan_upto split (index + 1) buffer g
  = scan_candidate split buffer (scan_upto split index buffer g) index.
Proof.
  intros Hi. unfold scan_upto.
  replace (index + 1) with (Z.of_nat (S (Z.to_nat index))) by lia.
  rewrite seqZ_S, fold_left_app, Z2Nat.id by lia. reflexivity.
Qed.

Lemma scan_upto_d (split index : Z) (buffer : list Z) (g : globals) :
  1 <= index -> d (scan_upto split index buffer g) = 0.
Proof.
  intros Hi. replace index with (index - 1 + 1) by lia.
  rewrite scan_upto_succ by lia. apply scan_candidate_d.
Qed.

Lemma scan_block_d (split : Z) (buffer : list Z) (g : globals) :
  d (scan_block split buffer g) = 0.
Proof. apply (scan_upto_d split totalChannels). unfold totalChannels. lia. Qed.

Lemma scan_blocks_d (split : Z) (blocks : list (list Z)) (g : globals) :
  blocks <> [] ->
  d (fold_left (fun g buffer => scan_block split buffer g) blocks g) = 0.
Proof.
  destruct blocks as [| b blocks _] using rev_ind; [congruence |].
  intros _. rewrite fold_left_app. apply scan_block_d.
Qed.

(** C4, as the code has it.  [resetModulo] is called after every
    candidate's pass over every block, so the counter is 0 whenever a
    candidate starts on a block: it is reset between candidates and also
    between the blocks of one candidate.  In every scanned block,
    whatever was scanned before, the [k]-th byte of the block gets lane
    [k mod n] for the candidate of channel count [n]: the lane
    assignment restarts at every block. *)
Theorem scan_lanes_restart (split index : Z) (buffer : list Z) (g : globals)
    (k : nat) :
  1 <= index <= 14 -> (k <= length buffer)%nat ->
  let n := indexToChannel !!! Z.to_nat index in
  d (scan_candidate split buffer g index) = 0
  /\ d (scan_block split buffer g) = 0
  /\ d (scan_upto split index buffer g) = 0
  /\ d (scan_candidate_bytes split index (take k buffer)
          (scan_upto split index buffer g))
     = Z.of_nat k mod n.
Proof.
  intros Hi Hk n.
  split; [apply scan_candidate_d |]. split; [apply scan_block_d |].
  assert (Hd : d (scan_upto split index buffer g) = 0)
    by (apply scan_upto_d; lia).
  split; [exact Hd |].
  pose proof (channel_of_index index Hi) as Hn. fold n in Hn.
  rewrite scan_candidate_bytes_d by (fold n; lia).
  fold n. rewrite Hd, length_take, Nat.min_l by exact Hk. reflexivity.
Qed.

Lemma scan_lanes_restart_witness :
  d (scan_candidate_bytes breakpoint 5 (take 7 [9; 9; 9; 9; 9; 9; 9; 9])
       (scan_upto breakpoint 5 [9; 9; 9; 9; 9; 9; 9; 9] initial_globals))
  = 2.
Proof.
  destruct (scan_lanes_restart breakpoint 5 [9; 9; 9; 9; 9; 9; 9; 9]
              initial_globals 7) as (_ & _ & _ & H).
  - lia.
  - cbn [length]. lia.
  - exact H.
Defined.

(** C4 as stated fails: a file of 24577 bytes is scanned in two blocks,
    of 24576 bytes and of 1 byte.  For candidate 5 (five channels) the
    last byte of the first block gets lane 1, and the first byte of the
    second block gets lane 1 again, not the next lane 2. *)
Lemma scan_lanes_counterexample :
  scanned_blocks (fopen_rb (replicate (Z.to_nat 24577) 0))
  = Some (File (replicate (Z.to_nat 24577) 0) 24577 true,
          [replicate (Z.to_nat 24576) 0; [0]])
  /\ (let b1 := replicate (Z.to_nat 24576) 0 in
      let b2 := [0] in
      let last_lane :=
        d (scan_candidate_bytes breakpoint 5 b1
             (scan_upto breakpoint 5 b1 initial_globals)) in
      let first_lane :=
        d (scan_candidate_bytes breakpoint 5 (take 1 b2)
             (scan_upto breakpoint 5 b2
                (scan_block breakpoint b1 initial_globals))) in
      last_lane = 1 /\ first_lane = 1
      /\ first_lane <> (last_lane + 1) mod 5).
Proof.
  split.
  { match goal with
    | |- _ = ?r => vm_cast_no_check (@eq_refl _ r)
    end. }
  cbn zeta.
  assert (H5 : indexToChannel !!! Z.to_nat 5 = 5) by reflexivity.
  assert (Hlast : d (scan_candidate_bytes breakpoint 5
                       (replicate (Z.to_nat 24576) 0)
                       (scan_upto breakpoint 5 (replicate (Z.to_nat 24576) 0)
                          initial_globals)) = 1).
  { rewrite scan_candidate_bytes_d; rewrite ?H5, ?scan_upto_d; try lia.
    rewrite length_replicate, Z2Nat.id by lia. reflexivity. }
  assert (Hfirst : d (scan_candidate_bytes breakpoint 5 (take 1 [0])
                        (scan_upto breakpoint 5 [0]
                           (scan_block breakpoint
                              (replicate (Z.to_nat 24576) 0)
                              initial_globals))) = 1).
  { rewrite scan_candidate_bytes_d; rewrite ?H5, ?scan_upto_d; try lia.
    reflexivity. }
  rewrite Hlast, Hfirst. repeat split. discriminate.
Qed.

(** ** The lane counter between the passes *)

Lemma scan_input_returns (split : Z) (inp : FILE) (g : globals) :
  exists inp' blocks,
    scanned_blocks inp = Some (inp', blocks)
    /\ contents inp' = contents inp
    /\ blocks <> []
    /\ scan_input split inp g
       = Some (inp',
               fold_left (fun g buffer => scan_block split buffer g) blocks
                 (set_fileLength (Z.of_nat (length (contents inp))) g)).
Proof.
  destruct (scanned_blocks_returns inp)
    as (inp' & blocks & Hb & Hc & Hne & _).
  exists inp', blocks. split; [exact Hb |]. split; [exact Hc |].
  split; [exact Hne |].
  now apply scan_input_blocks.
Qed.

Lemma for_each_routed_d (f : Z -> Z -> globals -> Z * globals) (ch : Z)
    (l : list Z) :
  (forall b i g, d (snd (f b i g)) = d g) ->
  1 <= ch ->
  forall g, 0 <= d g < ch ->
  d (snd (for_each (routed f ch) l g)) = (d g + Z.of_nat (length l)) mod ch.
Proof.
  intros Hf Hch. induction l as [| b l IH]; intros g Hd; cbn [for_each length].
  - cbn [snd]. rewrite Z.add_0_r, Z.mod_small by lia. reflexivity.
  - assert (Hstep : d (snd (routed f ch b g))
                    = if d g + 1 =? ch then 0 else d g + 1).
    { unfold routed, modulo. rewrite Hf. reflexivity. }
    destruct (routed f ch b g) as [b' g1]. cbn [snd] in Hstep.
    assert (Hd1 : 0 <= d g1 < ch)
      by (rewrite Hstep; destruct (Z.eqb_spec (d g + 1) ch); lia).
    specialize (IH g1 Hd1).
    destruct (for_each (routed f ch) l g1) as [rest g2]. cbn [snd] in *.
    rewrite IH, Hstep. destruct (Z.eqb_spec (d g + 1) ch) as [E | E].
    + replace (d g + Z.of_nat (S (length l)))
        with (Z.of_nat (length l) + 1 * ch) by lia.
      now rewrite Z.mod_add by lia.
    + f_equal. lia.
Qed.

Lemma encode_block_d (channel ch : Z) (l : list Z) (g : globals) :
  1 <= ch -> 0 <= d g < ch ->
  d (snd (Lite.encode_block channel ch l g))
  = (d g + Z.of_nat (length l)) mod ch.
Proof.
  intros Hch Hd. unfold Lite.encode_block.
  destruct (Z.eqb_spec ch 0) as [? | _]; [lia |]. cbn [negb].
  destruct (channel <? breakpoint);
    apply for_each_routed_d; try assumption; reflexivity.
Qed.

Lemma decode_block_d (channel ch : Z) (l : list Z) (g : globals) :
  1 <= ch -> 0 <= d g < ch ->
  d (snd (Lite.decode_block channel ch l g))
  = (d g + Z.of_nat (length l)) mod ch.
Proof.
  intros Hch Hd. unfold Lite.decode_block.
  destruct (Z.eqb_spec ch 0) as [? | _]; [lia |]. cbn [negb].
  destruct (channel <? breakpoint);
    apply for_each_routed_d; try assumption; reflexivity.
Qed.

(** C9.  Whatever the file and the globals it starts from, the scan of
    either source file returns with the lane counter at 0, its last
    action on the counter being the [resetModulo] of the last candidate
    on the last block; "reset variables" leaves the counter alone, so
    the commit encode starts at 0 without a reset of its own.  The
    decode starts from the initial value 0.  From a counter at 0 the
    encoder and the decoder of a channel count [ch] give the [k]-th
    byte the same lane, [k mod ch]. *)
Theorem commit_lane_counter (findSmallestChannel : globals -> Z)
    (inp : FILE) (g : globals) :
  (exists channel inp' g',
      Lite.scan findSmallestChannel inp g = Some (channel, inp', g')
      /\ d g' = 0)
  /\ (exists inp' g',
         Prepack.scan inp g = Some (inp', g')
         /\ d g' = 0 /\ d (reset_variables g') = 0)
  /\ d initial_globals = 0
  /\ (forall (channel ch : Z) (data code : list Z) (g_e g_d : globals)
             (k : nat),
         1 <= ch -> d g_e = 0 -> d g_d = 0 ->
         (k <= length data)%nat -> (k <= length code)%nat ->
         d (snd (Lite.encode_block channel ch (take k data) g_e))
         = Z.of_nat k mod ch
         /\ d (snd (Lite.decode_block channel ch (take k code) g_d))
            = Z.of_nat k mod ch
         /\ d (snd (Prepack.encode_block channel ch (take k data) g_e))
            = Z.of_nat k mod ch
         /\ d (snd (Prepack.decode_block channel ch (take k code) g_d))
            = Z.of_nat k mod ch).
Proof.
  split; [| split; [| split; [reflexivity |]]].
  - unfold Lite.scan.
    destruct (scan_input_returns 7 inp g)
      as (inp' & blocks & _ & _ & Hne & ->).
    eexists _, inp', _. split; [reflexivity |].
    rewrite reset_variables_d. now apply scan_blocks_d.
  - unfold Prepack.scan.
    destruct (scan_input_returns breakpoint inp g)
      as (inp' & blocks & _ & _ & Hne & ->).
    eexists inp', _. split; [reflexivity |].
    rewrite reset_variables_d. split; now apply scan_blocks_d.
  - intros channel ch data code g_e g_d k Hch He Hd Hk1 Hk2.
    rewrite encode_block_same, decode_block_same.
    rewrite encode_block_d, decode_block_d by lia.
    rewrite He, Hd, !length_take, !Nat.min_l by assumption.
    auto.
Qed.

Lemma commit_lane_counter_witness :
  d (snd (Lite.encode_block 12 4 (take 6 [1; 2; 3; 4; 5; 6; 7])
            initial_globals)) = 2
  /\ d (snd (Lite.decode_block 12 4 (take 6 [7; 6; 5; 4; 3; 2; 1])
               initial_globals)) = 2.
Proof.
  destruct (commit_lane_counter (fun _ => 0) (fopen_rb []) initial_globals)
    as (_ & _ & _ & H).
  destruct (H 12 4 [1; 2; 3; 4; 5; 6; 7] [7; 6; 5; 4; 3; 2; 1]
              initial_globals initial_globals 6%nat)
    as (H1 & H2 & _); try reflexivity; try (cbn [length]; lia).
  split; [exact H1 | exact H2].
Defined.

(** ** The filter state during the scan *)

Lemma scan_byte_channel0 (split index b : Z) (g : globals) :
  scan_byte split index 0 b g = count b index g.
Proof. reflexivity. Qed.




(** ** The two source files *)

(** The scans of the two files treat a candidate alike unless its index
    is 7, 8 or 9. *)
Lemma scan_byte_split_agree (index channel b : Z) (g : globals) :
  index < 7 \/ breakpoint <= index ->
  scan_byte 7 index channel b g = scan_byte breakpoint index channel b g.
Proof.
  unfold breakpoint. intros H. unfold scan_byte.
  destruct (channel =? 0); [reflexivity |].
  destruct (Z.ltb_spec index 7), (Z.ltb_spec index 10); try lia;
    try reflexivity.
  destruct (Z.leb_spec 7 index), (Z.leb_spec 10 index); try lia; reflexivity.
Qed.

(** For the candidates 7, 8 and 9 the scan of [prepack.c] calls the delta
    filter and the scan of [prepack_lite.c] the adaptive filter. *)
Lemma scan_byte_split_differ (index channel b : Z) (g : globals) :
  7 <= index < breakpoint -> channel <> 0 ->
  scan_byte breakpoint index channel b g
  = count (fst (routed deltaEnc channel b g)) index
      (snd (routed deltaEnc channel b g))
  /\ scan_byte 7 index channel b g
     = count (fst (routed adaptiveDeltaEnc channel b g)) index
         (snd (routed adaptiveDeltaEnc channel b g)).
Proof.
  unfold breakpoint. intros Hi Hc. unfold scan_byte, routed.
  destruct (Z.eqb_spec channel 0); [contradiction |].
  destruct (Z.ltb_spec index 10); [| lia].
  destruct (Z.ltb_spec index 7); [lia |].
  destruct (Z.leb_spec 7 index); [| lia].
  destruct (modulo channel g) as [m g1].
  split.
  - now destruct (deltaEnc b m g1).
  - now destruct (adaptiveDeltaEnc b m g1).
Qed.

(** C3: the scans of the two files on the one-byte file [1].  For
    candidate 7 the scan of [prepack.c] (delta filter, lane 1, history
    left at 1 by the candidates before it) counts residual 0, the scan of
    [prepack_lite.c] (adaptive filter, as for every index from 7 on)
    counts residual 255: the histograms differ. *)
Theorem scan_variants_differ (findSmallestChannel : globals -> Z) :
  exists inpP gP channel inpL gL,
    Prepack.scan (fopen_rb [1]) initial_globals = Some (inpP, gP)
    /\ Lite.scan findSmallestChannel (fopen_rb [1]) initial_globals
       = Some (channel, inpL, gL)
    /\ freq gP !!! 7%nat = <[0%nat := 1]> (replicate 256 0)
    /\ freq gL !!! 7%nat = <[255%nat := 1]> (replicate 256 0)
    /\ freq gP <> freq gL.
Proof.
  do 5 eexists.
  split; [vm_compute; reflexivity |].
  split; [vm_compute; reflexivity |].
  split; [vm_compute; reflexivity |].
  split; [vm_compute; reflexivity |].
  vm_compute. discriminate.
Qed.

(** ** The header on decode *)




(** ** The whole programs: encode, then decode *)

Lemma scan_byte_shape (split index channel b : Z) (g : globals) :
  lanes_shape g -> lanes_shape (scan_byte split index channel b g).
Proof.
  intros (H1 & H2 & H3). unfold scan_byte.
  destruct (channel =? 0); [now split |].
  destruct (index <? split).
  - unfold lanes_shape, modulo, deltaEnc, count.
    cbn [previous previousByte secondPreviousByte set_freq set_previous
         set_d]. now rewrite length_insert.
  - destruct (split <=? index); [| now split].
    unfold modulo. rewrite (surjective_pairing (adaptiveDeltaEnc _ _ _)).
    unfold lanes_shape, count, adaptiveDeltaEnc, updateWeight.
    cbn [snd previous previousByte secondPreviousByte set_freq set_weight
         set_previousByte set_secondPreviousByte set_d].
    now rewrite !length_insert.
Qed.

Lemma scan_blocks_shape (split : Z) (blocks : list (list Z)) :
  forall g, lanes_shape g ->
  lanes_shape (fold_left (fun g buffer => scan_block split buffer g) blocks g).
Proof.
  assert (Hbytes : forall index buffer g,
             lanes_shape g ->
             lanes_shape (scan_candidate_bytes split index buffer g)).
  { intros index buffer. unfold scan_candidate_bytes.
    induction buffer as [| b buffer IH]; intros g Hg; cbn [fold_left].
    - exact Hg.
    - apply IH, scan_byte_shape, Hg. }
  assert (Hcands : forall buffer l g,
             lanes_shape g ->
             lanes_shape (fold_left (scan_candidate split buffer) l g)).
  { intros buffer l. induction l as [| index l IH]; intros g Hg;
      cbn [fold_left]; [exact Hg |].
    apply IH. unfold scan_candidate, resetModulo.
    now apply (Hbytes index buffer g) in Hg. }
  induction blocks as [| buffer blocks IH]; intros g Hg; cbn [fold_left].
  - exact Hg.
  - apply IH. unfold scan_block. now apply Hcands.
Qed.

Lemma reset_variables_zero (g : globals) :
  lanes_shape g -> fresh (set_d 0 (reset_variables g)).
Proof.
  destruct g as [w p pb spb dd fr fl]. unfold lanes_shape.
  cbn [previous previousByte secondPreviousByte]. intros (H1 & H2 & H3).
  do 9 (destruct p as [| ? p]; [discriminate H1 || idtac |]);
    [| cbn in H1; lia].
  do 9 (destruct pb as [| ? pb]; [discriminate H2 || idtac |]);
    [| cbn in H2; lia].
  do 9 (destruct spb as [| ? spb]; [discriminate H3 || idtac |]);
    [| cbn in H3; lia].
  split; reflexivity.
Qed.

(** After the scan of either file from the initial globals, "reset
    variables" leaves the filter state zeroed and the lane counter is 0:
    the commit encode starts fresh. *)
Lemma scan_then_reset_fresh (split : Z) (inp : FILE) :
  exists inp' g,
    scan_input split inp initial_globals = Some (inp', g)
    /\ contents inp' = contents inp
    /\ fresh (reset_variables g).
Proof.
  destruct (scan_input_returns split inp initial_globals)
    as (inp' & blocks & _ & Hc & Hne & Hs).
  eexists inp', _. split; [exact Hs |]. split; [exact Hc |].
  match goal with |- fresh (reset_variables ?g) => set (g1 := g) end.
  assert (Hshape : lanes_shape g1).
  { apply scan_blocks_shape. repeat split. }
  assert (Hd : d g1 = 0) by (apply scan_blocks_d, Hne).
  pose proof (reset_variables_zero g1 Hshape) as [Hf _].
  split; [exact Hf |]. now rewrite reset_variables_d.
Qed.

(** Whatever candidate the selector picks among the 15, either program
    run in mode 'e' and then in mode 'd' gives the file back. *)
Lemma main_round_trip (findSmallestChannel : globals -> Z) (data : list Z) :
  (forall g, 0 <= findSmallestChannel g <= 14) ->
  Forall is_byte data ->
  (exists code,
      output (Lite.main_e findSmallestChannel (fopen_rb data) initial_globals)
      = Some code
      /\ output (Lite.main_d (fopen_rb code) initial_globals) = Some data)
  /\ (exists code,
         output (Prepack.main_e findSmallestChannel (fopen_rb data)
                   initial_globals) = Some code
         /\ output (Prepack.main_d (fopen_rb code) initial_globals)
            = Some data).
Proof.
  intros Hsel Hdata. split.
  - unfold Lite.main_e, Lite.main_d, Lite.scan.
    destruct (scan_then_reset_fresh 7 (fopen_rb data))
      as (inp' & g & -> & Hc & Hfresh).
    set (idx := findSmallestChannel g).
    destruct (proj1 (table_at_range idx) (Hsel g)) as [ch Hch].
    rewrite (lite_encode_returns idx ch _ _ _ Hch), Hc.
    cbn [fopen_rb contents app output].
    rewrite to_byte_id by (unfold is_byte; specialize (Hsel g); fold idx in Hsel; lia).
    eexists. split; [reflexivity |].
    rewrite (lite_decode_returns idx ch _ _ _ Hch). cbn [output app].
    rewrite block_roundtrip; [reflexivity | exact Hdata |].
    destruct Hfresh as [Hf Hd]. split; [now rewrite Hf | now rewrite Hd].
  - unfold Prepack.main_e, Prepack.scan.
    destruct (scan_then_reset_fresh breakpoint (fopen_rb data))
      as (inp' & g & -> & Hc & Hfresh).
    set (idx := findSmallestChannel g).
    destruct (proj1 (table_at_range idx) (Hsel g)) as [ch Hch].
    rewrite (prepack_commit_returns idx ch _ _ _ Hch), Hc.
    cbn [fopen_rb contents app output].
    rewrite to_byte_id by (unfold is_byte; specialize (Hsel g); fold idx in Hsel; lia).
    eexists. split; [reflexivity |].
    rewrite (prepack_main_d_returns idx ch _ _ Hch). cbn [output].
    rewrite block_roundtrip; [reflexivity | exact Hdata |].
    destruct Hfresh as [Hf Hd]. split; [now rewrite Hf | now rewrite Hd].
Qed.

(** * Further properties of the code *)

(** ** The selector *)

Section Selector.

Context {T : Type}.
Variable ops : double_ops T.
Variable g : globals.

Let chanEnt (i : Z) : T := calcEntropy ops i g.

Let step : Z * T -> Z -> Z * T :=
  fun '(index, min) i =>
    if flt ops (chanEnt i) min then (i, chanEnt i) else (index, min).

Lemma findSmallestChannel_fold :
  findSmallestChannel ops g
  = fst (fold_left step (seqZ 1 (totalChannels - 1)) (0, chanEnt 0)).
Proof. reflexivity. Qed.

(** The state of the search after the candidates 1..m: the index kept
    is at most [m] and [min] is its entropy. *)
Lemma search_prefix (m : nat) :
  let acc := fold_left step (seqZ 1 (Z.of_nat m)) (0, chanEnt 0) in
  0 <= fst acc <= Z.of_nat m /\ snd acc = chanEnt (fst acc).
Proof.
  induction m as [| m IH].
  - rewrite seqZ_nil by lia. cbn. split; [lia | reflexivity].
  - rewrite seqZ_S, fold_left_app. cbn [fold_left].
    destruct (fold_left step (seqZ 1 (Z.of_nat m)) (0, chanEnt 0))
      as [index min]. cbn [fst snd] in IH. destruct IH as [Hi Hmin].
    cbv zeta. unfold step. cbv beta iota.
    destruct (flt ops (chanEnt (1 + Z.of_nat m)) min); cbn [fst snd].
    + split; [lia | reflexivity].
    + split; [lia | exact Hmin].
Qed.

(** With a comparison that is irreflexive, transitive, and that
    separates ([a < c] gives [a < b] or [b < c]), the search keeps the
    first of the smallest entropies. *)
Hypothesis flt_irrefl : forall x, flt ops x x = false.
Hypothesis flt_trans : forall a b c,
  flt ops a b = true -> flt ops b c = true -> flt ops a c = true.
Hypothesis flt_split : forall a b c,
  flt ops a c = true -> flt ops a b = true \/ flt ops b c = true.


End Selector.

Lemma selector_in_table {T : Type} (ops : double_ops T) (g : globals) :
  0 <= findSmallestChannel ops g <= 14.
Proof.
  rewrite findSmallestChannel_fold.
  pose proof (search_prefix ops g 14) as [H _]. exact H.
Qed.

(** X1.  Whatever the histogram and whatever the [double] operations
    do (NaN included), [findSmallestChannel] returns one of the 15
    indices of the candidate table. *)
Theorem findSmallestChannel_range {T : Type} (ops : double_ops T)
    (g : globals) :
  0 <= findSmallestChannel ops g <= 14
  /\ exists ch, table_at (findSmallestChannel ops g) = Some ch.
Proof.
  pose proof (selector_in_table ops g) as H.
  split; [exact H |]. now apply table_at_range.
Qed.


Lemma rational_lt_spec (a b : Q) :
  flt rational_ops a b = true <-> (a < b)%Q.
Proof.
  cbn. rewrite Qlt_alt. destruct (a ?= b)%Q; split; congruence.
Qed.

Lemma rational_lt_irrefl (x : Q) : flt rational_ops x x = false.
Proof.
  destruct (flt rational_ops x x) eqn:E; [| reflexivity].
  apply rational_lt_spec in E. now apply Qlt_irrefl in E.
Qed.




Lemma calcEntropy_row {T : Type} (ops : double_ops T) (a b : Z)
    (g : globals) :
  freq g !!! Z.to_nat a = freq g !!! Z.to_nat b ->
  calcEntropy ops a g = calcEntropy ops b g.
Proof. intros H. unfold calcEntropy. now rewrite H. Qed.

Lemma findSmallestChannel_tie {T : Type} (ops : double_ops T) (g : globals) :
  (forall x, flt ops x x = false) ->
  (forall i, 0 <= i <= 14 -> freq g !!! Z.to_nat i = freq g !!! 0%nat) ->
  findSmallestChannel ops g = 0.
Proof.
  intros Hirr Hrows. unfold findSmallestChannel. cbv zeta.
  match goal with |- fst (fold_left ?f _ _) = _ => set (step := f) end.
  assert (Hfold : forall l,
             Forall (fun i => 0 <= i <= 14) l ->
             fold_left step l (0, calcEntropy ops 0 g)
             = (0, calcEntropy ops 0 g)).
  { induction 1 as [| i l Hi _ IH]; cbn [fold_left]; [reflexivity |].
    replace (step (0, calcEntropy ops 0 g) i) with (0, calcEntropy ops 0 g);
      [exact IH |].
    subst step. cbv beta iota.
    rewrite (calcEntropy_row ops i 0 g (Hrows i Hi)), Hirr. reflexivity. }
  rewrite Hfold; [reflexivity |].
  apply Forall_forall. intros i Hi. apply elem_of_seqZ in Hi.
  unfold totalChannels in Hi. lia.
Qed.

Lemma scan_input_empty (split : Z) :
  scan_input split (fopen_rb []) initial_globals
  = Some (File [] 0 true, initial_globals).
Proof. vm_compute. reflexivity. Qed.

(** X3.  Ties go to the identity candidate: when [x < x] is false (as it
    is for every double, NaN included) and the 15 histogram rows are
    equal, [findSmallestChannel] returns 0.  This is the case of the
    empty file, where every entropy is computed from 0/0: both
    programs encode it as the single header byte 0, which both decode
    to the empty file. *)
Theorem findSmallestChannel_ties {T : Type} (ops : double_ops T)
    (g : globals) :
  (forall x, flt ops x x = false) ->
  ((forall i, 0 <= i <= 14 -> freq g !!! Z.to_nat i = freq g !!! 0%nat) ->
   findSmallestChannel ops g = 0)
  /\ output (Lite.main_e (findSmallestChannel ops) (fopen_rb [])
               initial_globals) = Some [0]
  /\ output (Prepack.main_e (findSmallestChannel ops) (fopen_rb [])
               initial_globals) = Some [0]
  /\ output (Lite.main_d (fopen_rb [0]) initial_globals) = Some []
  /\ output (Prepack.main_d (fopen_rb [0]) initial_globals) = Some [].
Proof.
  intros Hirr.
  assert (H0 : findSmallestChannel ops initial_globals = 0).
  { apply findSmallestChannel_tie; [exact Hirr |].
    intros i Hi. unfold initial_globals. cbn [freq].
    rewrite !lookup_total_replicate_2 by lia. reflexivity. }
  split; [now apply findSmallestChannel_tie |].
  split; [| split; [| split; reflexivity]].
  - unfold Lite.main_e, Lite.scan. rewrite scan_input_empty, H0.
    reflexivity.
  - unfold Prepack.main_e, Prepack.scan. rewrite scan_input_empty, H0.
    reflexivity.
Qed.

Lemma findSmallestChannel_ties_witness :
  output (Lite.main_e (findSmallestChannel rational_ops) (fopen_rb [])
            initial_globals) = Some [0].
Proof.
  destruct (findSmallestChannel_ties rational_ops initial_globals
              rational_lt_irrefl) as (_ & H & _).
  exact H.
Defined.

(** X4.  Either program, run in mode 'e' on any file and then in mode 'd'
    on what it wrote, gives the file back, whatever the [double]
    operations compute: the output of mode 'e' is a header byte in
    0..14 followed by as many bytes as the file has. *)
Theorem program_round_trip {T : Type} (ops : double_ops T) (data : list Z) :
  Forall is_byte data ->
  (exists idx body,
      0 <= idx <= 14 /\ length body = length data
      /\ output (Lite.main_e (findSmallestChannel ops) (fopen_rb data)
                   initial_globals) = Some (idx :: body)
      /\ output (Lite.main_d (fopen_rb (idx :: body)) initial_globals)
         = Some data)
  /\ (exists idx body,
         0 <= idx <= 14 /\ length body = length data
         /\ output (Prepack.main_e (findSmallestChannel ops) (fopen_rb data)
                      initial_globals) = Some (idx :: body)
         /\ output (Prepack.main_d (fopen_rb (idx :: body)) initial_globals)
            = Some data).
Proof.
  intros Hdata. split.
  - unfold Lite.main_e, Lite.main_d, Lite.scan.
    destruct (scan_then_reset_fresh 7 (fopen_rb data))
      as (inp' & g & -> & Hc & Hfresh).
    pose proof (selector_in_table ops g) as Hidx.
    destruct (proj1 (table_at_range _) Hidx) as [ch Hch].
    set (idx := findSmallestChannel ops g) in *.
    exists idx, (fst (Lite.encode_block idx ch data (reset_variables g))).
    rewrite (lite_encode_returns idx ch _ _ _ Hch), Hc.
    cbn [fopen_rb contents app output].
    rewrite to_byte_id by (unfold is_byte; lia).
    rewrite (lite_decode_returns idx ch _ _ _ Hch). cbn [output app].
    split; [exact Hidx |]. split; [apply encode_block_length |].
    split; [reflexivity |].
    rewrite block_roundtrip; [reflexivity | exact Hdata |].
    destruct Hfresh as [Hf Hd]. split; [now rewrite Hf | now rewrite Hd].
  - unfold Prepack.main_e, Prepack.scan.
    destruct (scan_then_reset_fresh breakpoint (fopen_rb data))
      as (inp' & g & -> & Hc & Hfresh).
    pose proof (selector_in_table ops g) as Hidx.
    destruct (proj1 (table_at_range _) Hidx) as [ch Hch].
    set (idx := findSmallestChannel ops g) in *.
    exists idx, (fst (Lite.encode_block idx ch data (reset_variables g))).
    rewrite (prepack_commit_returns idx ch _ _ _ Hch), Hc.
    cbn [fopen_rb contents app output].
    rewrite to_byte_id by (unfold is_byte; lia).
    rewrite (prepack_main_d_returns idx ch _ _ Hch). cbn [output].
    split; [exact Hidx |]. split; [apply encode_block_length |].
    split; [reflexivity |].
    rewrite block_roundtrip; [reflexivity | exact Hdata |].
    destruct Hfresh as [Hf Hd]. split; [now rewrite Hf | now rewrite Hd].
Qed.

Lemma program_round_trip_witness :
  exists idx body,
    0 <= idx <= 14 /\ length body = 4%nat
    /\ output (Lite.main_e (findSmallestChannel rational_ops)
                 (fopen_rb [7; 7; 9; 200]) initial_globals)
       = Some (idx :: body)
    /\ output (Lite.main_d (fopen_rb (idx :: body)) initial_globals)
       = Some [7; 7; 9; 200].
Proof.
  apply (program_round_trip rational_ops [7; 7; 9; 200]).
  repeat constructor; unfold is_byte; lia.
Defined.

(** X5.  The decoders of the two files are interchangeable: on every
    input, valid or not, [main] in mode 'd' of [prepack.c] ends as
    [decode] of [prepack_lite.c] does, with the same bytes written and
    the same globals; and the commit of [prepack.c] for a candidate is
    [encode] of [prepack_lite.c] after "reset variables". *)
Theorem programs_interchangeable (channel : Z) (input : list Z) (inp : FILE)
    (out : list Z) (g : globals) :
  Prepack.main_d (fopen_rb input) g = Lite.main_d (fopen_rb input) g
  /\ Prepack.commit channel inp out g
     = Lite.encode channel inp out (reset_variables g).
Proof.
  split.
  - unfold Lite.main_d. destruct input as [| h code].
    + reflexivity.
    + destruct (table_at h) as [ch |] eqn:Hch.
      * now rewrite (prepack_main_d_returns h ch _ _ Hch),
          (lite_decode_returns h ch _ _ _ Hch).
      * unfold Prepack.main_d, Lite.decode.
        rewrite getc_fopen_rb, Hch. reflexivity.
  - destruct (table_at channel) as [ch |] eqn:Hch.
    + now rewrite (prepack_commit_returns channel ch _ _ _ Hch),
        (lite_encode_returns channel ch _ _ _ Hch).
    + unfold Prepack.commit, Lite.encode. now rewrite Hch.
Qed.

(** ** The commit passes as functions of the whole file *)

(** X6.  The blocks leave no trace.  For a candidate of the table,
    [encode] returns for every input stream, wherever it is positioned
    and whatever its end-of-file indicator, having written the header
    byte and then the filter applied to the whole file as one buffer,
    byte for byte as long as the file; [decode] returns having written
    the inverse filter applied to everything after the header. *)
Theorem transcode_whole_file (channel ch : Z) (inp : FILE) (code out : list Z)
    (g : globals) :
  table_at channel = Some ch ->
  Lite.encode channel inp out g
  = Returned (out ++ channel :: fst (Lite.encode_block channel ch
                                       (contents inp) g),
              snd (Lite.encode_block channel ch (contents inp) g))
  /\ length (fst (Lite.encode_block channel ch (contents inp) g))
     = length (contents inp)
  /\ Lite.decode (fopen_rb (channel :: code)) out g
     = Returned (out ++ fst (Lite.decode_block channel ch code
                               (reset_variables g)),
                 snd (Lite.decode_block channel ch code (reset_variables g)))
  /\ length (fst (Lite.decode_block channel ch code (reset_variables g)))
     = length code.
Proof.
  intros Hch.
  assert (Hidx : 0 <= channel <= 14) by (apply table_at_range; eauto).
  split; [| split; [apply encode_block_length | split]].
  - rewrite (lite_encode_returns channel ch _ _ _ Hch).
    rewrite to_byte_id by (unfold is_byte; lia). reflexivity.
  - apply (lite_decode_returns channel ch _ _ _ Hch).
  - unfold Lite.decode_block.
    destruct (channel <? breakpoint), (ch =? 0); cbn [negb fst snd];
      solve [reflexivity | apply for_each_length].
Qed.

Lemma transcode_whole_file_witness :
  Lite.encode 2 (File [5; 6; 7] 2 true) [] initial_globals
  = Returned ([] ++ 2 :: fst (Lite.encode_block 2 2 [5; 6; 7] initial_globals),
              snd (Lite.encode_block 2 2 [5; 6; 7] initial_globals)).
Proof.
  destruct (transcode_whole_file 2 2 (File [5; 6; 7] 2 true) [] []
              initial_globals eq_refl) as [H _].
  exact H.
Defined.

Lemma block_prefix (f : list Z -> globals -> list Z * globals) :
  (forall l1 l2 g,
      f (l1 ++ l2) g
      = (fst (f l1 g) ++ fst (f l2 (snd (f l1 g))),
         snd (f l2 (snd (f l1 g))))) ->
  (forall l g, length (fst (f l g)) = length l) ->
  forall (k : nat) (data : list Z) (g : globals),
    fst (f (take k data) g) = take k (fst (f data g)).
Proof.
  intros Happ Hlen k data g.
  rewrite <- (take_drop k data) at 2. rewrite Happ. cbn [fst].
  rewrite take_app.
  rewrite (take_ge (fst (f (take k data) g)))
    by (rewrite Hlen, length_take; lia).
  match goal with
  | |- _ = _ ++ ?tl => replace tl with (@nil Z); [now rewrite app_nil_r |]
  end.
  symmetry. apply nil_length_inv.
  rewrite length_take, !Hlen, length_take, length_drop. lia.
Qed.

Lemma decode_block_length (channel ch : Z) (code : list Z) (g : globals) :
  length (fst (Lite.decode_block channel ch code g)) = length code.
Proof.
  unfold Lite.decode_block.
  destruct (channel <? breakpoint), (ch =? 0); cbn [negb fst snd];
    solve [reflexivity | apply for_each_length].
Qed.

(** X7.  The filters work on line: the first [k] bytes written depend
    on the first [k] bytes read only.  Encoding (decoding) a prefix of
    a file gives the prefix of the same length of the encoding
    (decoding) of the file. *)
Theorem transcode_prefix (channel : Z) (data : list Z) (k : nat)
    (g : globals) :
  0 <= channel <= 14 ->
  (exists code,
      output (Lite.encode channel (fopen_rb data) [] g) = Some code
      /\ output (Lite.encode channel (fopen_rb (take k data)) [] g)
         = Some (take (S k) code))
  /\ (exists plain,
         output (Lite.decode (fopen_rb (channel :: data)) [] g) = Some plain
         /\ output (Lite.decode (fopen_rb (channel :: take k data)) [] g)
            = Some (take k plain)).
Proof.
  intros Hidx. destruct (proj1 (table_at_range channel) Hidx) as [ch Hch].
  split.
  - rewrite !(lite_encode_returns channel ch _ _ _ Hch).
    cbn [fopen_rb contents app output]. eexists. split; [reflexivity |].
    cbn [take]. f_equal. f_equal.
    apply (block_prefix (Lite.encode_block channel ch)).
    + apply encode_block_app.
    + apply encode_block_length.
  - rewrite !(lite_decode_returns channel ch _ _ _ Hch).
    cbn [app output]. eexists. split; [reflexivity |]. f_equal.
    apply (block_prefix (Lite.decode_block channel ch)).
    + apply decode_block_app.
    + apply decode_block_length.
Qed.

Lemma transcode_prefix_witness :
  exists code,
    output (Lite.encode 13 (fopen_rb [1; 2; 3; 4; 5]) [] initial_globals)
    = Some code
    /\ output (Lite.encode 13 (fopen_rb (take 2 [1; 2; 3; 4; 5])) []
                 initial_globals) = Some (take 3 code).
Proof.
  destruct (transcode_prefix 13 [1; 2; 3; 4; 5] 2 initial_globals) as [H _].
  - lia.
  - exact H.
Defined.

(** ** Decode, then encode *)

Lemma routed_delta_roundtrip_rev (ch e : Z) (g g' : globals) :
  same_lanes g g' -> is_byte e ->
  fst (routed deltaEnc ch (fst (routed deltaDec ch e g)) g') = e
  /\ same_lanes (snd (routed deltaDec ch e g))
                (snd (routed deltaEnc ch (fst (routed deltaDec ch e g)) g')).
Proof.
  intros H He. same_lanes_cases g g' H.
  unfold routed, modulo, deltaEnc, deltaDec, same_lanes, filter_state.
  cbn [fst snd set_d set_previous weight previous previousByte
       secondPreviousByte d].
  rewrite to_byte_idem, (to_byte_id e He), byte_cancel by exact He.
  auto.
Qed.

Lemma routed_adaptive_roundtrip_rev (ch e : Z) (g g' : globals) :
  same_lanes g g' -> is_byte e ->
  fst (routed adaptiveDeltaEnc ch
         (fst (routed adaptiveDeltaDec ch e g)) g') = e
  /\ same_lanes (snd (routed adaptiveDeltaDec ch e g))
                (snd (routed adaptiveDeltaEnc ch
                        (fst (routed adaptiveDeltaDec ch e g)) g')).
Proof.
  intros H He. same_lanes_cases g g' H.
  unfold routed, modulo, set_d.
  cbn [d weight previous previousByte secondPreviousByte freq fileLength].
  rewrite adaptiveDeltaDec_eq, adaptiveDeltaEnc_eq. cbn zeta. cbn [fst snd].
  rewrite !to_byte_idem, (to_byte_id e He).
  set (lane := Z.to_nat (if dd + 1 =? ch then 0 else dd + 1)).
  set (prediction := to_byte (pb !!! lane - spb !!! lane + pb !!! lane)).
  set (sh := Z.shiftr w rate).
  assert (He' : to_byte (sh + (prediction - to_byte (sh + (prediction - e))))
                = e).
  { replace (sh + (prediction - to_byte (sh + (prediction - e))))
      with ((sh + prediction) - to_byte ((sh + prediction) - e)).
    - now apply byte_cancel.
    - replace (sh + prediction - e) with (sh + (prediction - e)) by lia. lia. }
  rewrite He'. split; [reflexivity |]. split; reflexivity.
Qed.

Lemma for_each_bytes (f : Z -> globals -> Z * globals) (l : list Z) :
  (forall b g, is_byte (fst (f b g))) ->
  forall g, Forall is_byte (fst (for_each f l g)).
Proof.
  intros Hf. induction l as [| b l IH]; intros g; cbn [for_each].
  - constructor.
  - pose proof (Hf b g) as Hb. destruct (f b g) as [b' g1].
    specialize (IH g1). destruct (for_each f l g1) as [rest g2].
    cbn [fst] in *. now constructor.
Qed.

Lemma decode_block_bytes (channel ch : Z) (code : list Z) (g : globals) :
  Forall is_byte code ->
  Forall is_byte (fst (Lite.decode_block channel ch code g)).
Proof.
  intros Hcode. unfold Lite.decode_block.
  destruct (channel <? breakpoint), (ch =? 0); cbn [negb fst snd];
    try exact Hcode; apply for_each_bytes; intros b g0;
    unfold routed, modulo, deltaDec, adaptiveDeltaDec; cbn [fst];
    apply to_byte_range.
Qed.

Lemma block_roundtrip_rev (channel ch : Z) (code : list Z) (g g' : globals) :
  Forall is_byte code -> same_lanes g g' ->
  fst (Lite.encode_block channel ch
         (fst (Lite.decode_block channel ch code g)) g') = code.
Proof.
  intros Hcode Hs. unfold Lite.decode_block, Lite.encode_block.
  destruct (channel <? breakpoint), (ch =? 0); cbn [negb fst snd];
    try reflexivity.
  - apply (for_each_roundtrip (routed deltaDec ch) (routed deltaEnc ch));
      auto using routed_delta_roundtrip_rev.
  - apply (for_each_roundtrip (routed adaptiveDeltaDec ch)
             (routed adaptiveDeltaEnc ch));
      auto using routed_adaptive_roundtrip_rev.
Qed.

(** X8.  Every stream of bytes behind a header 0..14 is the encoding of
    a file: the decode of the stream returns a file of bytes whose
    encoding for the same candidate is the stream again.  With the
    round trip in the other direction, the forward transform of a
    candidate is a bijection on the files of each length. *)
Theorem decode_then_encode (idx : Z) (code : list Z) (g_dec g_enc : globals) :
  0 <= idx <= 14 -> Forall is_byte code -> fresh g_dec -> fresh g_enc ->
  exists data g1 g2,
    Lite.decode (fopen_rb (idx :: code)) [] g_dec = Returned (data, g1)
    /\ Forall is_byte data
    /\ length data = length code
    /\ Lite.encode idx (fopen_rb data) [] g_enc = Returned (idx :: code, g2).
Proof.
  intros Hidx Hcode Hd He.
  destruct (proj1 (table_at_range idx) Hidx) as [ch Hch].
  assert (Hs : same_lanes g_dec g_enc).
  { destruct He as [He1 He2], Hd as [Hd1 Hd2]. split; congruence. }
  exists (fst (Lite.decode_block idx ch code g_dec)).
  do 2 eexists.
  rewrite (lite_decode_returns idx ch _ _ _ Hch).
  rewrite (lite_encode_returns idx ch _ _ _ Hch).
  rewrite reset_variables_fresh by assumption.
  rewrite to_byte_id by (unfold is_byte; lia).
  cbn [fopen_rb contents app].
  rewrite (block_roundtrip_rev idx ch code g_dec g_enc Hcode Hs).
  split; [reflexivity |]. split; [now apply decode_block_bytes |].
  split; [apply decode_block_length | reflexivity].
Qed.

Lemma decode_then_encode_witness :
  exists data g1 g2,
    Lite.decode (fopen_rb [14; 1; 2; 3; 250; 9]) [] initial_globals
    = Returned (data, g1)
    /\ Forall is_byte data
    /\ length data = 5%nat
    /\ Lite.encode 14 (fopen_rb data) [] initial_globals
       = Returned ([14; 1; 2; 3; 250; 9], g2).
Proof.
  apply (decode_then_encode 14 [1; 2; 3; 250; 9]
           initial_globals initial_globals).
  - lia.
  - repeat constructor; unfold is_byte; lia.
  - split; reflexivity.
  - split; reflexivity.
Defined.

Lemma block_lockstep (channel ch : Z) (data : list Z) (g g' : globals) :
  Forall is_byte data -> same_lanes g g' ->
  same_lanes (snd (Lite.encode_block channel ch data g))
             (snd (Lite.decode_block channel ch
                     (fst (Lite.encode_block channel ch data g)) g')).
Proof.
  intros Hdata Hs. unfold Lite.decode_block, Lite.encode_block.
  destruct (channel <? breakpoint), (ch =? 0); cbn [negb fst snd];
    try exact Hs.
  - apply for_each_roundtrip; auto using routed_delta_roundtrip.
  - apply for_each_roundtrip; auto using routed_adaptive_roundtrip.
Qed.

(** X9.  Encoder and decoder run in lockstep: when a file has been
    encoded and the result decoded, the decoder holds the same weight,
    the same three lane histories and the same lane counter as the
    encoder. *)
Theorem round_trip_lockstep (idx : Z) (data : list Z)
    (g_enc g_dec : globals) :
  0 <= idx <= 14 -> Forall is_byte data -> fresh g_enc -> fresh g_dec ->
  exists code g1 g2,
    Lite.encode idx (fopen_rb data) [] g_enc = Returned (idx :: code, g1)
    /\ Lite.decode (fopen_rb (idx :: code)) [] g_dec = Returned (data, g2)
    /\ filter_state g1 = filter_state g2
    /\ d g1 = d g2.
Proof.
  intros Hidx Hdata He Hd.
  destruct (proj1 (table_at_range idx) Hidx) as [ch Hch].
  assert (Hs : same_lanes g_enc g_dec).
  { destruct He as [He1 He2], Hd as [Hd1 Hd2]. split; congruence. }
  exists (fst (Lite.encode_block idx ch data g_enc)).
  do 2 eexists.
  rewrite (lite_encode_returns idx ch _ _ _ Hch).
  rewrite (lite_decode_returns idx ch _ _ _ Hch).
  rewrite reset_variables_fresh by assumption.
  rewrite to_byte_id by (unfold is_byte; lia).
  cbn [fopen_rb contents app].
  rewrite (block_roundtrip idx ch data g_enc g_dec Hdata Hs).
  split; [reflexivity |]. split; [reflexivity |].
  exact (block_lockstep idx ch data g_enc g_dec Hdata Hs).
Qed.

Lemma round_trip_lockstep_witness :
  exists code g1 g2,
    Lite.encode 10 (fopen_rb [3; 1; 4; 1; 5]) [] initial_globals
    = Returned (10 :: code, g1)
    /\ Lite.decode (fopen_rb (10 :: code)) [] initial_globals
       = Returned ([3; 1; 4; 1; 5], g2)
    /\ filter_state g1 = filter_state g2
    /\ d g1 = d g2.
Proof.
  apply (round_trip_lockstep 10 [3; 1; 4; 1; 5]
           initial_globals initial_globals).
  - lia.
  - repeat constructor; unfold is_byte; lia.
  - split; reflexivity.
  - split; reflexivity.
Defined.

(** ** What the filters keep and what they leave alone *)

Lemma for_each_invariant (P : globals -> Prop)
    (f : Z -> globals -> Z * globals) (l : list Z) :
  (forall b g, P g -> P (snd (f b g))) ->
  forall g, P g -> P (snd (for_each f l g)).
Proof.
  intros Hf. induction l as [| b l IH]; intros g Hg; cbn [for_each].
  - exact Hg.
  - pose proof (Hf b g Hg) as H1. destruct (f b g) as [b' g1].
    specialize (IH g1 H1). destruct (for_each f l g1) as [rest g2].
    exact IH.
Qed.

Lemma shift_range (w : Z) :
  -1280 <= w <= 1280 -> -20 <= Z.shiftr w rate <= 20.
Proof.
  intros H. unfold rate. rewrite Z.shiftr_div_pow2 by lia.
  change (2 ^ 6) with 64. split.
  - apply Z.div_le_lower_bound; lia.
  - apply Z.div_le_upper_bound; lia.
Qed.

Lemma routed_weight_bounded (f : Z -> Z -> globals -> Z * globals) :
  f = deltaEnc \/ f = deltaDec \/ f = adaptiveDeltaEnc
  \/ f = adaptiveDeltaDec ->
  forall ch b g,
    -1280 <= weight g <= 1280 ->
    -1280 <= weight (snd (routed f ch b g)) <= 1280.
Proof.
  intros Hf ch b g Hw. destruct g as [w p pb spb dd fr fl].
  cbn [weight] in Hw. unfold routed, modulo, set_d.
  cbn [d weight previous previousByte secondPreviousByte freq fileLength].
  destruct Hf as [-> | [-> | [-> | ->]]].
  - exact Hw.
  - exact Hw.
  - rewrite adaptiveDeltaEnc_eq. cbn zeta. cbn [snd weight].
    now apply updateWeight_bounded.
  - rewrite adaptiveDeltaDec_eq. cbn zeta. cbn [snd weight].
    now apply updateWeight_bounded.
Qed.

Lemma scan_byte_weight_bounded (split index channel b : Z) (g : globals) :
  -1280 <= weight g <= 1280 ->
  -1280 <= weight (scan_byte split index channel b g) <= 1280.
Proof.
  intros Hw. unfold scan_byte. destruct (channel =? 0); [exact Hw |].
  destruct (index <? split).
  - pose proof (routed_weight_bounded deltaEnc ltac:(auto) channel b g Hw)
      as H. unfold routed in H.
    destruct (modulo channel g) as [m g1].
    destruct (deltaEnc b m g1) as [r g2]. exact H.
  - destruct (split <=? index); [| exact Hw].
    pose proof (routed_weight_bounded adaptiveDeltaEnc ltac:(auto)
                  channel b g Hw) as H. unfold routed in H.
    destruct (modulo channel g) as [m g1].
    destruct (adaptiveDeltaEnc b m g1) as [r g2]. exact H.
Qed.

Lemma scan_block_weight_bounded (split : Z) (buffer : list Z) (g : globals) :
  -1280 <= weight g <= 1280 ->
  -1280 <= weight (scan_block split buffer g) <= 1280.
Proof.
  unfold scan_block. generalize (seqZ 0 totalChannels). intros l.
  revert g. induction l as [| index l IH]; intros g Hw; cbn [fold_left];
    [exact Hw |].
  apply IH. unfold scan_candidate, resetModulo, scan_candidate_bytes.
  cbn [weight set_d].
  generalize (indexToChannel !!! Z.to_nat index). intros channel.
  clear IH. revert g Hw.
  induction buffer as [| b buffer IHb]; intros g Hw; cbn [fold_left];
    [exact Hw |].
  apply IHb. now apply scan_byte_weight_bounded.
Qed.

(** X10.  The weight never leaves [-1280, 1280], and the correction
    [weight >> rate] that the adaptive filter adds never leaves
    [-20, 20]: a state within these bounds (the initial and the reset
    states are) stays within them through the encoding of any buffer
    for any candidate, through its decoding, and through the scan of
    any block by all the candidates. *)
Theorem weight_bounded_throughout (split channel ch : Z) (data : list Z)
    (g : globals) :
  -1280 <= weight g <= 1280 ->
  let within g := -1280 <= weight g <= 1280
                  /\ -20 <= Z.shiftr (weight g) rate <= 20 in
  within (snd (Lite.encode_block channel ch data g))
  /\ within (snd (Lite.decode_block channel ch data g))
  /\ within (scan_block split data g).
Proof.
  intros Hw within.
  assert (Hwithin : forall g', -1280 <= weight g' <= 1280 -> within g').
  { intros g' H. split; [exact H | now apply shift_range]. }
  repeat split; try apply Hwithin; try apply shift_range.
  all: try (now apply scan_block_weight_bounded).
  all: unfold Lite.encode_block, Lite.decode_block;
    destruct (channel <? breakpoint), (ch =? 0); cbn [negb snd];
    try exact Hw;
    apply (for_each_invariant (fun g => -1280 <= weight g <= 1280));
    try exact Hw; intros b g0; apply routed_weight_bounded; auto.
Qed.

Lemma weight_bounded_throughout_witness :
  -1280 <= weight (snd (Lite.encode_block 12 4 (replicate 3000 1)
                          initial_globals)) <= 1280.
Proof.
  destruct (weight_bounded_throughout 7 12 4 (replicate 3000 1)
              initial_globals) as [[H _] _].
  - cbn. lia.
  - exact H.
Defined.

Lemma routed_delta_frame (ch b : Z) (g : globals) :
  let adaptive g := (weight g, previousByte g, secondPreviousByte g,
                     freq g, fileLength g) in
  adaptive (snd (routed deltaEnc ch b g)) = adaptive g
  /\ adaptive (snd (routed deltaDec ch b g)) = adaptive g.
Proof. destruct g. split; reflexivity. Qed.

Lemma routed_adaptive_frame (ch b : Z) (g : globals) :
  let delta g := (previous g, freq g, fileLength g) in
  delta (snd (routed adaptiveDeltaEnc ch b g)) = delta g
  /\ delta (snd (routed adaptiveDeltaDec ch b g)) = delta g.
Proof.
  destruct g as [w p pb spb dd fr fl]. unfold routed, modulo, set_d.
  cbn [d weight previous previousByte secondPreviousByte freq fileLength].
  rewrite adaptiveDeltaEnc_eq, adaptiveDeltaDec_eq. split; reflexivity.
Qed.

(** X11.  The two filter families share no state.  The encoding or
    decoding of a buffer for a delta candidate (index below
    [breakpoint]) leaves the weight and the two adaptive histories as
    they were; for an adaptive candidate it leaves the delta history as
    it was; neither touches the histogram or [fileLength]. *)
Theorem filter_families_disjoint (channel ch : Z) (data : list Z)
    (g : globals) :
  let ge := snd (Lite.encode_block channel ch data g) in
  let gd := snd (Lite.decode_block channel ch data g) in
  (channel < breakpoint ->
   (weight ge, previousByte ge, secondPreviousByte ge)
   = (weight g, previousByte g, secondPreviousByte g)
   /\ (weight gd, previousByte gd, secondPreviousByte gd)
      = (weight g, previousByte g, secondPreviousByte g))
  /\ (breakpoint <= channel ->
      previous ge = previous g /\ previous gd = previous g)
  /\ (freq ge, fileLength ge) = (freq g, fileLength g)
  /\ (freq gd, fileLength gd) = (freq g, fileLength g).
Proof.
  cbv zeta. unfold Lite.encode_block, Lite.decode_block.
  assert (Hd : forall f,
             f = deltaEnc \/ f = deltaDec ->
             (weight (snd (for_each (routed f ch) data g)),
              previousByte (snd (for_each (routed f ch) data g)),
              secondPreviousByte (snd (for_each (routed f ch) data g)),
              freq (snd (for_each (routed f ch) data g)),
              fileLength (snd (for_each (routed f ch) data g)))
             = (weight g, previousByte g, secondPreviousByte g, freq g,
                fileLength g)).
  { intros f Hf.
    apply (for_each_invariant
             (fun g' => (weight g', previousByte g', secondPreviousByte g',
                         freq g', fileLength g')
                        = (weight g, previousByte g, secondPreviousByte g,
                           freq g, fileLength g))); [| reflexivity].
    intros b g0 <-. destruct (routed_delta_frame ch b g0) as [H1 H2].
    destruct Hf as [-> | ->]; assumption. }
  assert (Ha : forall f,
             f = adaptiveDeltaEnc \/ f = adaptiveDeltaDec ->
             (previous (snd (for_each (routed f ch) data g)),
              freq (snd (for_each (routed f ch) data g)),
              fileLength (snd (for_each (routed f ch) data g)))
             = (previous g, freq g, fileLength g)).
  { intros f Hf.
    apply (for_each_invariant
             (fun g' => (previous g', freq g', fileLength g')
                        = (previous g, freq g, fileLength g)));
      [| reflexivity].
    intros b g0 <-. destruct (routed_adaptive_frame ch b g0) as [H1 H2].
    destruct Hf as [-> | ->]; assumption. }
  pose proof (Hd deltaEnc ltac:(auto)) as He1.
  pose proof (Hd deltaDec ltac:(auto)) as Hd1.
  pose proof (Ha adaptiveDeltaEnc ltac:(auto)) as He2.
  pose proof (Ha adaptiveDeltaDec ltac:(auto)) as Hd2.
  destruct (Z.ltb_spec channel breakpoint), (ch =? 0); cbn [negb snd];
    repeat split; try reflexivity; try lia; try congruence.
Qed.

Lemma filter_families_disjoint_witness :
  previous (snd (Lite.encode_block 11 3 [9; 8; 7; 6] initial_globals))
  = previous initial_globals.
Proof.
  destruct (filter_families_disjoint 11 3 [9; 8; 7; 6] initial_globals)
    as (_ & H & _).
  destruct H as [H _]; [unfold breakpoint; lia | exact H].
Defined.

(** ** The delta filter in closed form *)

Lemma routed_deltaEnc_eq (n b : Z) (g : globals) :
  routed deltaEnc n b g
  = (to_byte (previous g
                !!! Z.to_nat (if d g + 1 =? n then 0 else d g + 1)
              - to_byte b),
     set_previous
       (<[Z.to_nat (if d g + 1 =? n then 0 else d g + 1) := to_byte b]>
          (previous g))
       (set_d (if d g + 1 =? n then 0 else d g + 1) g)).
Proof. reflexivity. Qed.

Lemma next_lane (n len : Z) :
  1 <= n -> 0 <= len ->
  (if len mod n + 1 =? n then 0 else len mod n + 1) = (len + 1) mod n.
Proof.
  intros Hn Hlen. pose proof (Z.mod_pos_bound len n ltac:(lia)) as Hb.
  rewrite <- (Zplus_mod_idemp_l len 1 n).
  destruct (Z.eqb_spec (len mod n + 1) n) as [E | E].
  - rewrite E. rewrite Z.mod_same by lia. reflexivity.
  - rewrite (Z.mod_small (len mod n + 1)) by lia. reflexivity.
Qed.

Lemma lanes_distinct (n a b : Z) :
  0 < n -> 0 < b - a < n -> (a + 1) mod n <> (b + 1) mod n.
Proof.
  intros Hn Hab Heq.
  assert (H0 : (b + 1 - (a + 1)) mod n = 0).
  { rewrite Zminus_mod, Heq, Z.sub_diag. apply Z.mod_0_l. lia. }
  replace (b + 1 - (a + 1)) with (b - a) in H0 by lia.
  rewrite Z.mod_small in H0 by lia. lia.
Qed.

Lemma delta_residual_app (n : Z) (l : list Z) (b : Z) (k : nat) :
  1 <= n -> (k < length l)%nat ->
  delta_residual n (l ++ [b]) k = delta_residual n l k.
Proof.
  intros Hn Hk. unfold delta_residual.
  rewrite (lookup_total_app_l l [b] k) by exact Hk.
  destruct (Z.of_nat k <? n); [reflexivity |].
  rewrite (lookup_total_app_l l [b]) by lia. reflexivity.
Qed.

(** The delta filter of [n] channels run over [data] from a zeroed
    history: the residuals, the lane counter, and the history, which
    holds the last [n] bytes, each in the lane it was routed to. *)
Lemma delta_run (n : Z) (g : globals) :
  1 <= n <= 8 -> previous g = replicate 8 0 -> d g = 0 ->
  forall data, Forall is_byte data ->
  let r := for_each (routed deltaEnc n) data g in
  let len := Z.of_nat (length data) in
  fst r = map (delta_residual n data) (seq 0 (length data))
  /\ d (snd r) = len mod n
  /\ length (previous (snd r)) = 8%nat
  /\ (forall k : nat,
         len - n <= Z.of_nat k < len ->
         previous (snd r) !!! Z.to_nat ((Z.of_nat k + 1) mod n)
         = data !!! k)
  /\ (forall k : nat,
         len <= Z.of_nat k < n ->
         previous (snd r) !!! Z.to_nat ((Z.of_nat k + 1) mod n) = 0).
Proof.
  intros Hn Hprev Hd0 data.
  induction data as [| b l IH] using rev_ind; intros Hbytes; cbv zeta.
  - cbn [for_each fst snd length map seq]. rewrite Hprev, Hd0.
    split; [reflexivity |]. split; [now rewrite Z.mod_0_l by lia |].
    split; [apply length_replicate |]. split.
    + intros k Hk. cbn in Hk. lia.
    + intros k Hk.
      pose proof (Z.mod_pos_bound (Z.of_nat k + 1) n ltac:(lia)).
      apply lookup_total_replicate_2. lia.
  - apply Forall_app in Hbytes. destruct Hbytes as [Hl Hb].
    apply Forall_cons_1 in Hb. destruct Hb as [Hb _].
    specialize (IH Hl). cbv zeta in IH.
    destruct IH as (Hfst & Hd & Hlen & Hwin & Hnew).
    rewrite for_each_app. cbn [fst snd for_each].
    set (gl := snd (for_each (routed deltaEnc n) l g)) in *.
    rewrite routed_deltaEnc_eq. cbn [fst snd].
    rewrite Hd, next_lane by lia.
    rewrite length_app. cbn [length].
    set (len := length l) in *.
    replace (len + 1)%nat with (S len) by lia.
    pose proof (Z.mod_pos_bound (Z.of_nat len + 1) n ltac:(lia)) as Hlane.
    rewrite (to_byte_id b Hb).
    split; [| split; [| split; [| split]]].
    + rewrite seq_S, map_app. cbn [map Nat.add].
      rewrite Hfst. f_equal.
      * apply map_ext_in. intros k Hk. apply in_seq in Hk.
        symmetry. apply delta_residual_app; lia.
      * f_equal. unfold delta_residual.
        rewrite (list_lookup_total_middle l [] b len eq_refl).
        f_equal. f_equal.
        destruct (Z.ltb_spec (Z.of_nat len) n) as [Hlt | Hge].
        -- apply (Hnew len). lia.
        -- rewrite (lookup_total_app_l l [b]) by lia.
           rewrite <- (Hwin (len - Z.to_nat n)%nat) by lia.
           f_equal. f_equal.
           replace (Z.of_nat (len - Z.to_nat n) + 1)
             with (Z.of_nat len + 1 + (-1) * n) by lia.
           now rewrite Z.mod_add by lia.
    + cbn [d set_previous set_d]. f_equal. lia.
    + cbn [previous set_previous]. now rewrite length_insert.
    + intros k Hk. cbn [previous set_previous set_d].
      destruct (Nat.eq_dec k len) as [-> | Hne].
      * rewrite list_lookup_total_insert_eq by lia.
        now rewrite (list_lookup_total_middle l [] b len eq_refl).
      * rewrite list_lookup_total_insert_ne.
        -- rewrite (lookup_total_app_l l [b]) by lia. apply Hwin. lia.
        -- pose proof (lanes_distinct n (Z.of_nat k) (Z.of_nat len)
                         ltac:(lia) ltac:(lia)).
           pose proof (Z.mod_pos_bound (Z.of_nat k + 1) n ltac:(lia)).
           lia.
    + intros k Hk. cbn [previous set_previous set_d].
      rewrite list_lookup_total_insert_ne.
      * apply Hnew. lia.
      * pose proof (lanes_distinct n (Z.of_nat len) (Z.of_nat k)
                      ltac:(lia) ltac:(lia)).
        pose proof (Z.mod_pos_bound (Z.of_nat k + 1) n ltac:(lia)).
        lia.
Qed.

Lemma delta_candidate (idx : Z) :
  1 <= idx <= 9 ->
  let n := indexToChannel !!! Z.to_nat idx in
  table_at idx = Some n /\ 1 <= n <= 8
  /\ forall data g,
       Lite.encode_block idx n data g = for_each (routed deltaEnc n) data g.
Proof.
  intros Hidx n.
  pose proof (channel_of_index idx ltac:(lia)) as Hn. fold n in Hn.
  assert (Ht : table_at idx = Some n).
  { destruct (proj1 (table_at_range idx) ltac:(lia)) as [ch Hch].
    rewrite Hch. f_equal. unfold table_at in Hch.
    destruct (idx <? 0); [discriminate |].
    symmetry. now apply list_lookup_total_correct. }
  split; [exact Ht |]. split; [exact Hn |].
  intros data g. unfold Lite.encode_block.
  destruct (Z.ltb_spec idx breakpoint) as [_ | H];
    [| unfold breakpoint in H; lia].
  destruct (Z.eqb_spec n 0); [lia | reflexivity].
Qed.

(** X12.  The delta candidates in closed form.  For the candidates 1..9,
    of channel count [n], the commit encode of a file from a fresh
    state writes the header and then, for each byte, the byte [n] places
    before it minus the byte, modulo 256, with 0 in the place of the
    missing bytes before the first [n]: each of the [n] interleaved
    lanes is differenced on its own. *)
Theorem delta_closed_form (idx : Z) (data : list Z) (g : globals) :
  1 <= idx <= 9 -> Forall is_byte data -> fresh g ->
  let n := indexToChannel !!! Z.to_nat idx in
  output (Lite.encode idx (fopen_rb data) [] g)
  = Some (idx :: map (delta_residual n data) (seq 0 (length data)))
  /\ output (Prepack.commit idx (fopen_rb data) [] g)
     = Some (idx :: map (delta_residual n data) (seq 0 (length data))).
Proof.
  intros Hidx Hdata Hfresh n.
  destruct (delta_candidate idx Hidx) as (Ht & Hn & Hblock). fold n in Ht, Hn, Hblock.
  assert (Hprev : previous g = replicate 8 0 /\ d g = 0).
  { destruct Hfresh as [Hf Hd]. unfold filter_state in Hf.
    injection Hf as _ Hp _ _. auto. }
  destruct Hprev as [Hprev Hd].
  destruct (delta_run n g Hn Hprev Hd data Hdata) as [Hfst _].
  cbv zeta in Hfst.
  rewrite (lite_encode_returns idx n _ _ _ Ht).
  rewrite (prepack_commit_returns idx n _ _ _ Ht).
  rewrite (reset_variables_fresh g Hfresh).
  cbn [fopen_rb contents app output].
  rewrite to_byte_id by (unfold is_byte; lia).
  rewrite Hblock, Hfst. split; reflexivity.
Qed.

Lemma delta_closed_form_witness :
  output (Lite.encode 3 (fopen_rb [10; 20; 30; 10; 20; 31]) []
            initial_globals)
  = Some [3; 246; 236; 226; 0; 0; 255].
Proof.
  destruct (delta_closed_form 3 [10; 20; 30; 10; 20; 31] initial_globals)
    as [H _].
  - lia.
  - repeat constructor; unfold is_byte; lia.
  - split; reflexivity.
  - exact H.
Defined.

(** X13.  A delta candidate flattens a signal of its period: when every
    byte of the file equals the byte [n] places before it ([n] the
    channel count of the candidate), every residual after the first
    [n] is 0. *)
Theorem delta_periodic (idx : Z) (data : list Z) (g : globals) :
  1 <= idx <= 9 -> Forall is_byte data -> fresh g ->
  let n := Z.to_nat (indexToChannel !!! Z.to_nat idx) in
  (forall k : nat, (n <= k < length data)%nat ->
                   data !!! (k - n)%nat = data !!! k) ->
  exists code,
    output (Lite.encode idx (fopen_rb data) [] g) = Some (idx :: code)
    /\ length code = length data
    /\ drop n code = replicate (length data - n) 0.
Proof.
  intros Hidx Hdata Hfresh n Hper.
  destruct (delta_candidate idx Hidx) as (Ht & Hn & Hblock).
  assert (Hprev : previous g = replicate 8 0 /\ d g = 0).
  { destruct Hfresh as [Hf Hd]. unfold filter_state in Hf.
    injection Hf as _ Hp _ _. auto. }
  destruct Hprev as [Hprev Hd].
  set (m := indexToChannel !!! Z.to_nat idx) in *.
  destruct (delta_run m g Hn Hprev Hd data Hdata) as [Hfst _].
  cbv zeta in Hfst.
  exists (map (delta_residual m data) (seq 0 (length data))).
  rewrite (lite_encode_returns idx m _ _ _ Ht).
  cbn [fopen_rb contents app output].
  rewrite to_byte_id by (unfold is_byte; lia).
  rewrite Hblock, Hfst.
  split; [reflexivity |].
  split; [now rewrite length_map, length_seq |].
  apply list_eq_same_length with (length data - n)%nat.
  - apply length_replicate.
  - rewrite length_drop, length_map, length_seq. reflexivity.
  - intros i x y Hi Hx Hy.
    apply lookup_replicate in Hy. destruct Hy as [-> _].
    rewrite lookup_drop, list_lookup_fmap in Hx.
    rewrite lookup_seq_lt in Hx by lia. cbn in Hx. injection Hx as <-.
    unfold delta_residual.
    destruct (Z.ltb_spec (Z.of_nat (n + i)) m) as [Hlt | _];
      [subst n; lia |].
    fold n. rewrite (Hper (n + i)%nat) by lia.
    rewrite Z.sub_diag. reflexivity.
Qed.

Lemma delta_periodic_witness :
  exists code,
    output (Lite.encode 3 (fopen_rb [10; 20; 30; 10; 20; 30; 10; 20]) []
              initial_globals) = Some (3 :: code)
    /\ length code = 8%nat
    /\ drop 3 code = replicate 5 0.
Proof.
  apply (delta_periodic 3 [10; 20; 30; 10; 20; 30; 10; 20] initial_globals).
  - lia.
  - repeat constructor; unfold is_byte; lia.
  - split; reflexivity.
  - change (Z.to_nat (indexToChannel !!! Z.to_nat 3)) with 3%nat.
    intros k Hk. cbn [length] in Hk.
    do 8 (destruct k as [| k]; [try lia; reflexivity |]). lia.
Defined.

(** ** What the scan samples *)





(** ** The histogram of the identity candidate *)

Lemma occurrences_cons (v b : Z) (l : list Z) :
  occurrences v (b :: l)
  = (if decide (to_byte b = v) then 1 else 0) + occurrences v l.
Proof.
  unfold occurrences. rewrite filter_cons.
  destruct (decide (to_byte b = v)); cbn [length]; lia.
Qed.

Lemma occurrences_app (v : Z) (l1 l2 : list Z) :
  occurrences v (l1 ++ l2) = occurrences v l1 + occurrences v l2.
Proof.
  unfold occurrences. rewrite filter_app, length_app. lia.
Qed.

Lemma count_row_other (current channel : Z) (g : globals) (j : nat) :
  Z.to_nat channel <> j -> freq (count current channel g) !!! j = freq g !!! j.
Proof.
  intros Hne. unfold count. cbn [freq set_freq].
  now rewrite list_lookup_total_insert_ne.
Qed.

Lemma scan_byte_row_other (split index channel b : Z) (g : globals)
    (j : nat) :
  Z.to_nat index <> j ->
  freq (scan_byte split index channel b g) !!! j = freq g !!! j.
Proof.
  intros Hne. unfold scan_byte.
  destruct (channel =? 0); [now apply count_row_other |].
  destruct (index <? split).
  - destruct (modulo channel g) as [m g1] eqn:Em.
    destruct (deltaEnc b m g1) as [r g2] eqn:Ed.
    rewrite count_row_other by exact Hne.
    unfold modulo in Em. injection Em as <- <-.
    unfold deltaEnc in Ed. injection Ed as <- <-. reflexivity.
  - destruct (split <=? index); [| reflexivity].
    destruct (modulo channel g) as [m g1] eqn:Em.
    rewrite (surjective_pairing (adaptiveDeltaEnc b m g1)).
    rewrite count_row_other by exact Hne.
    unfold modulo in Em. injection Em as <- <-. reflexivity.
Qed.

Lemma scan_candidate_row_other (split index : Z) (buffer : list Z) (j : nat) :
  Z.to_nat index <> j ->
  forall g, freq (scan_candidate split buffer g index) !!! j = freq g !!! j.
Proof.
  intros Hne. unfold scan_candidate, resetModulo, scan_candidate_bytes.
  cbn [freq set_d].
  generalize (indexToChannel !!! Z.to_nat index). intros channel.
  induction buffer as [| b buffer IH]; intros g; cbn [fold_left];
    [reflexivity |].
  rewrite IH. now apply scan_byte_row_other.
Qed.

Lemma count_row_same (current channel : Z) (g : globals) (v : Z) :
  freq_shape g -> 0 <= channel < 15 -> 0 <= v < 256 ->
  (freq (count current channel g) !!! Z.to_nat channel) !!! Z.to_nat v
  = (freq g !!! Z.to_nat channel) !!! Z.to_nat v
    + (if decide (to_byte current = v) then 1 else 0).
Proof.
  intros [Hlen Hrows] Hch Hv. unfold count. cbn [freq set_freq].
  assert (Hrow : length (freq g !!! Z.to_nat channel) = 256%nat)
    by (apply (Forall_lookup_total_1 _ _ _ Hrows); lia).
  pose proof (to_byte_range current) as Hb. unfold is_byte in Hb.
  rewrite list_lookup_total_insert_eq by lia.
  destruct (decide (to_byte current = v)) as [-> | Hne].
  - now rewrite list_lookup_total_insert_eq by lia.
  - rewrite list_lookup_total_insert_ne by lia. lia.
Qed.

Lemma scan_candidate0_row (split : Z) (buffer : list Z) (v : Z) :
  0 <= v < 256 ->
  forall g, freq_shape g ->
  freq_shape (scan_candidate split buffer g 0)
  /\ (freq (scan_candidate split buffer g 0) !!! 0%nat) !!! Z.to_nat v
     = (freq g !!! 0%nat) !!! Z.to_nat v + occurrences v buffer.
Proof.
  intros Hv. unfold scan_candidate, resetModulo, scan_candidate_bytes.
  change (indexToChannel !!! Z.to_nat 0) with 0.
  induction buffer as [| b buffer IH]; intros g Hs; cbn [fold_left].
  - split; [exact Hs |]. unfold occurrences. cbn. lia.
  - rewrite scan_byte_channel0.
    pose proof (count_counted b 0 g Hs ltac:(lia)) as (Hs1 & _).
    destruct (IH (count b 0 g) Hs1) as [Hs2 Hrow].
    split; [exact Hs2 |]. rewrite Hrow, occurrences_cons.
    pose proof (count_row_same b 0 g v Hs ltac:(lia) Hv) as Hc.
    change (Z.to_nat 0) with 0%nat in Hc. rewrite Hc. lia.
Qed.

Lemma scan_block_row0 (split : Z) (buffer : list Z) (v : Z) (g : globals) :
  0 <= v < 256 -> freq_shape g ->
  (freq (scan_block split buffer g) !!! 0%nat) !!! Z.to_nat v
  = (freq g !!! 0%nat) !!! Z.to_nat v + occurrences v buffer.
Proof.
  intros Hv Hs. unfold scan_block.
  rewrite seqZ_cons by (unfold totalChannels; lia). cbn [fold_left].
  destruct (scan_candidate0_row split buffer v Hv g Hs) as [_ <-].
  generalize (scan_candidate split buffer g 0). intros g1.
  assert (Hall : Forall (fun j => 1 <= j)
                   (seqZ (Z.succ 0) (Z.pred totalChannels))).
  { apply Forall_forall. intros j Hj. apply elem_of_seqZ in Hj. lia. }
  revert g1. induction Hall as [| j l Hj _ IH]; intros g1; cbn [fold_left];
    [reflexivity |].
  rewrite IH. f_equal. apply scan_candidate_row_other. lia.
Qed.

(** X15.  The histogram of candidate 0 is the plain byte histogram of
    what the scan read: after the scan of a file from the initial
    globals, in either source file, the count of every byte value [v] in
    row 0 is the number of bytes equal to [v] in the blocks read, which
    for a file of at most 614400 bytes is their number in the file. *)
Theorem baseline_histogram (split : Z) (data : list Z) (v : Z) :
  0 <= v < 256 ->
  exists inp g blocks,
    scan_input split (fopen_rb data) initial_globals = Some (inp, g)
    /\ scanned_blocks (fopen_rb data) = Some (inp, blocks)
    /\ (freq g !!! 0%nat) !!! Z.to_nat v = occurrences v (concat blocks)
    /\ (Z.of_nat (length data) <= blocksize * (boost + 1) ->
        (freq g !!! 0%nat) !!! Z.to_nat v = occurrences v data).
Proof.
  intros Hv.
  destruct (scanned_blocks_returns (fopen_rb data))
    as (inp & blocks & Hb & _ & _ & _ & Hall).
  cbn [fopen_rb contents] in Hall.
  pose proof (scan_input_blocks split _ _ initial_globals _ Hb) as Hscan.
  cbn [fopen_rb contents] in Hscan.
  set (g0 := set_fileLength (Z.of_nat (length data)) initial_globals) in *.
  assert (Hrow : forall bl g,
             freq_shape g ->
             (freq (fold_left (fun g buffer => scan_block split buffer g)
                      bl g) !!! 0%nat) !!! Z.to_nat v
             = (freq g !!! 0%nat) !!! Z.to_nat v + occurrences v (concat bl)).
  { induction bl as [| buffer bl IH]; intros g Hs; cbn [fold_left concat].
    - unfold occurrences. cbn. lia.
    - destruct (scan_block_counted split buffer g Hs) as (Hs1 & _).
      rewrite (IH _ Hs1), scan_block_row0, occurrences_app by assumption.
      lia. }
  eexists inp, _, blocks. split; [exact Hscan |]. split; [exact Hb |].
  assert (H0 : (freq g0 !!! 0%nat) !!! Z.to_nat v = 0).
  { change (freq g0) with (freq initial_globals). unfold initial_globals.
    cbn [freq]. rewrite !lookup_total_replicate_2 by lia. reflexivity. }
  split.
  - rewrite (Hrow blocks g0 initial_freq_shape), H0. lia.
  - intros Hsmall. rewrite (Hrow blocks g0 initial_freq_shape), H0.
    rewrite (Hall Hsmall). lia.
Qed.

Lemma baseline_histogram_witness :
  exists inp g blocks,
    scan_input breakpoint (fopen_rb [7; 7; 9]) initial_globals = Some (inp, g)
    /\ scanned_blocks (fopen_rb [7; 7; 9]) = Some (inp, blocks)
    /\ (freq g !!! 0%nat) !!! Z.to_nat 7 = occurrences 7 (concat blocks)
    /\ (Z.of_nat (length [7; 7; 9]) <= blocksize * (boost + 1) ->
        (freq g !!! 0%nat) !!! Z.to_nat 7 = occurrences 7 [7; 7; 9]).
Proof.
  apply (baseline_histogram breakpoint [7; 7; 9] 7). lia.
Defined.

(** ** What the commit pass takes from the scan *)

Lemma routed_enc_same_lanes (f : Z -> Z -> globals -> Z * globals) :
  f = deltaEnc \/ f = adaptiveDeltaEnc ->
  forall ch b g g',
    same_lanes g g' ->
    fst (routed f ch b g) = fst (routed f ch b g')
    /\ same_lanes (snd (routed f ch b g)) (snd (routed f ch b g')).
Proof.
  intros Hfam ch b g g' H. same_lanes_cases g g' H.
  unfold routed, modulo, set_d.
  cbn [d weight previous previousByte secondPreviousByte freq fileLength].
  destruct Hfam as [-> | ->].
  - split; [reflexivity |]. split; reflexivity.
  - rewrite !adaptiveDeltaEnc_eq. split; [reflexivity |]. split; reflexivity.
Qed.

Lemma for_each_same_lanes (f : Z -> globals -> Z * globals) (l : list Z) :
  (forall b g g',
      same_lanes g g' ->
      fst (f b g) = fst (f b g') /\ same_lanes (snd (f b g)) (snd (f b g'))) ->
  forall g g', same_lanes g g' ->
               fst (for_each f l g) = fst (for_each f l g').
Proof.
  intros Hf. induction l as [| b l IH]; intros g g' Hs; cbn [for_each];
    [reflexivity |].
  destruct (Hf b g g' Hs) as [H1 H2].
  destruct (f b g) as [x g1], (f b g') as [x' g1']. cbn [fst snd] in *.
  specialize (IH g1 g1' H2).
  destruct (for_each f l g1) as [r g2], (for_each f l g1') as [r' g2'].
  cbn [fst] in *. now subst.
Qed.

Lemma encode_block_same_lanes (channel ch : Z) (data : list Z)
    (g g' : globals) :
  same_lanes g g' ->
  fst (Lite.encode_block channel ch data g)
  = fst (Lite.encode_block channel ch data g').
Proof.
  intros Hs. unfold Lite.encode_block.
  destruct (channel <? breakpoint), (ch =? 0); cbn [negb fst];
    try reflexivity;
    apply for_each_same_lanes; try exact Hs;
    intros b g0 g0'; apply routed_enc_same_lanes; auto.
Qed.

(** X16.  The scan decides the candidate and nothing else.  Whatever
    the file, the scan of either program ends and "reset variables"
    then leaves the weight and the three histories zeroed and the lane
    counter at 0, so that what mode 'e' writes is what the commit
    encode writes from the initial globals for the candidate selected:
    no filter state and no histogram of the scan reaches the output. *)
Theorem scan_only_selects {T : Type} (ops : double_ops T) (data : list Z) :
  (exists idx inp g,
      Lite.scan (findSmallestChannel ops) (fopen_rb data) initial_globals
      = Some (idx, inp, g)
      /\ 0 <= idx <= 14 /\ contents inp = data /\ fresh g
      /\ output (Lite.main_e (findSmallestChannel ops) (fopen_rb data)
                   initial_globals)
         = output (Lite.encode idx (fopen_rb data) [] initial_globals))
  /\ (exists idx inp g,
         Prepack.scan (fopen_rb data) initial_globals = Some (inp, g)
         /\ idx = findSmallestChannel ops g
         /\ 0 <= idx <= 14 /\ contents inp = data
         /\ fresh (reset_variables g)
         /\ output (Prepack.main_e (findSmallestChannel ops) (fopen_rb data)
                      initial_globals)
            = output (Prepack.commit idx (fopen_rb data) []
                        initial_globals)).
Proof.
  split.
  - unfold Lite.main_e, Lite.scan.
    destruct (scan_then_reset_fresh 7 (fopen_rb data))
      as (inp' & g & Hscan & Hc & Hfresh).
    rewrite Hscan.
    pose proof (selector_in_table ops g) as Hidx.
    destruct (proj1 (table_at_range _) Hidx) as [ch Hch].
    set (idx := findSmallestChannel ops g) in *.
    exists idx, inp', (reset_variables g).
    split; [reflexivity |]. split; [exact Hidx |].
    split; [exact Hc |]. split; [exact Hfresh |].
    rewrite !(lite_encode_returns idx ch _ _ _ Hch), Hc.
    cbn [output fopen_rb contents]. do 3 f_equal.
    apply encode_block_same_lanes.
    destruct Hfresh as [Hf Hd]. split; [now rewrite Hf | now rewrite Hd].
  - unfold Prepack.main_e, Prepack.scan.
    destruct (scan_then_reset_fresh breakpoint (fopen_rb data))
      as (inp' & g & Hscan & Hc & Hfresh).
    rewrite Hscan.
    pose proof (selector_in_table ops g) as Hidx.
    destruct (proj1 (table_at_range _) Hidx) as [ch Hch].
    set (idx := findSmallestChannel ops g) in *.
    exists idx, inp', g.
    split; [reflexivity |]. split; [reflexivity |]. split; [exact Hidx |].
    split; [exact Hc |]. split; [exact Hfresh |].
    rewrite !(prepack_commit_returns idx ch _ _ _ Hch), Hc.
    cbn [output fopen_rb contents]. do 3 f_equal.
    apply encode_block_same_lanes.
    destruct Hfresh as [Hf Hd]. split; [now rewrite Hf | now rewrite Hd].
Qed.
